(** * UPSC Samachar: the news aggregation function

    A shallow embedding of [netlify/functions/news.js]: the topic taxonomy,
    the relevance filter and the classifier, the per-endpoint feed parser,
    and the aggregating request handler (merge, deduplicate, sort, group).

    Conventions of the embedding.
    - A JavaScript string is a [string] whose characters are the code units
      of the text, restricted to code units below 256 (ASCII and Latin-1).
      On that range [toLowerCase], the whitespace class of [trim] and of
      the regular expression [\s], and the UTF-8 encoding done by
      [Buffer.from] are written out in full.
    - An instant is the number of milliseconds since the epoch, in [Z].
      [toISOString] and [new Date(iso)] are inverse to each other on valid
      instants, so the ISO-8601 text of [pubDate] and [lastUpdated] is
      represented by the instant itself.
    - [Date.parse] on feed text, the clock, the network and the XML parser
      are outside the program: the record [World] holds what they answer
      during one request (what every endpoint did and what xml2js made of
      its body).
    - A thrown exception is the [Throw] case of the [result] monad, and
      an [await] that never ends is its [Pending] case. *)

From Stdlib Require Import ZArith NArith Ascii String DecimalString List Sorted Permutation Lia Bool.
From stdpp Require Import base option list strings gmap fin_maps.

Local Open Scope string_scope.
#[local] Set Warnings "-clear-no-such-hyp".

(** ** JavaScript string primitives used by the function *)

Module Js.

Definition code (c : ascii) : N := N_of_ascii c.

Definition inRange (lo hi n : N) : bool := ((lo <=? n) && (n <=? hi))%N.

(** [String.prototype.toLowerCase] on one code unit below 256: the ASCII
    capitals and the Latin-1 capitals (all of U+00C0..U+00DE but the
    multiplication sign U+00D7) move up by 32. *)
Definition lowerChar (c : ascii) : ascii :=
  let n := code c in
  if inRange 65 90 n || (inRange 192 222 n && negb (n =? 215)%N)
  then ascii_of_N (n + 32) else c.

Fixpoint toLowerCase (s : string) : string :=
  match s with
  | EmptyString => EmptyString
  | String c r => String (lowerChar c) (toLowerCase r)
  end.

(** [s.startsWith(p)] *)
Fixpoint startsWith (p s : string) : bool :=
  match p, s with
  | EmptyString, _ => true
  | String _ _, EmptyString => false
  | String a p', String b s' => if Ascii.eqb a b then startsWith p' s' else false
  end.

(** [s.includes(k)]: [k] occurs in [s] as a contiguous substring. *)
Fixpoint includes (s k : string) : bool :=
  startsWith k s ||
  match s with
  | EmptyString => false
  | String _ r => includes r k
  end.

(** [s.slice(0, n)] *)
Fixpoint slice0 (n : nat) (s : string) : string :=
  match n, s with
  | O, _ => EmptyString
  | S _, EmptyString => EmptyString
  | S n', String c r => String c (slice0 n' r)
  end.

(** White space of [trim] and of [\s], below code unit 256: TAB, LF, VT,
    FF, CR, SPACE and NO-BREAK SPACE. *)
Definition isSpace (c : ascii) : bool :=
  let n := code c in inRange 9 13 n || (n =? 32)%N || (n =? 160)%N.

Fixpoint trimStart (s : string) : string :=
  match s with
  | EmptyString => EmptyString
  | String c r => if isSpace c then trimStart r else s
  end.

Definition isEmpty (s : string) : bool :=
  match s with EmptyString => true | String _ _ => false end.

Fixpoint trimEnd (s : string) : string :=
  match s with
  | EmptyString => EmptyString
  | String c r =>
      let r' := trimEnd r in
      if isSpace c && isEmpty r' then EmptyString else String c r'
  end.

Definition trim (s : string) : string := trimEnd (trimStart s).

(** [s.replace(/\s+/g, " ")]: every maximal run of white space becomes one
    space. [inRun] tells that the previous character was white space. *)
Fixpoint collapseFrom (inRun : bool) (s : string) : string :=
  match s with
  | EmptyString => EmptyString
  | String c r =>
      if isSpace c
      then (if inRun then collapseFrom true r else String " " (collapseFrom true r))
      else String c (collapseFrom false r)
  end.

Definition collapseSpaces (s : string) : string := collapseFrom false s.

Definition isGt (c : ascii) : bool := Ascii.eqb c ">".
Definition isLt (c : ascii) : bool := Ascii.eqb c "<".

Fixpoint hasGt (s : string) : bool :=
  match s with
  | EmptyString => false
  | String c r => isGt c || hasGt r
  end.

(** [s.replace(/<[^>]*>/g, "")]: from a ["<"] up to the next [">"]
    everything goes, both included; a ["<"] that no [">"] follows stays.
    [inTag] tells that the scan is between a ["<"] and its [">"] (which is
    known to exist). *)
Fixpoint stripFrom (inTag : bool) (s : string) : string :=
  match s with
  | EmptyString => EmptyString
  | String c r =>
      if inTag
      then (if isGt c then stripFrom false r else stripFrom true r)
      else if isLt c && hasGt r then stripFrom true r
      else String c (stripFrom false r)
  end.

Definition stripTags (s : string) : string := stripFrom false s.

(** [s.replace(/[^...]/g, "")] for a character class: the characters of
    the class are kept. *)
Fixpoint keepChars (keep : ascii -> bool) (s : string) : string :=
  match s with
  | EmptyString => EmptyString
  | String c r => if keep c then String c (keepChars keep r) else keepChars keep r
  end.

Definition isLowerAlnum (c : ascii) : bool :=
  let n := code c in inRange 97 122 n || inRange 48 57 n.

Definition isAlnum (c : ascii) : bool :=
  let n := code c in inRange 97 122 n || inRange 65 90 n || inRange 48 57 n.

(** [Buffer.from(s)]: the UTF-8 bytes of the text. A code unit below 128 is
    one byte, one in 128..255 is two. *)
Definition utf8Char (c : ascii) : list N :=
  let n := code c in
  if (n <? 128)%N then [n]
  else [N.lor 192 (N.shiftr n 6); N.lor 128 (N.land n 63)].

Fixpoint utf8 (s : string) : list N :=
  match s with
  | EmptyString => []
  | String c r => utf8Char c ++ utf8 r
  end.

Definition base64Alphabet : string :=
  "ABCDEFGHIJKLMNOPQRSTUVWXYZabcdefghijklmnopqrstuvwxyz0123456789+/".

Definition base64Digit (n : N) : ascii :=
  match String.get (N.to_nat n) base64Alphabet with
  | Some c => c
  | None => "="%char
  end.

(** [buf.toString("base64")]: three bytes give four digits; one or two
    bytes left over are padded with ["="]. *)
Fixpoint base64 (bs : list N) : string :=
  match bs with
  | [] => EmptyString
  | [a] =>
      String (base64Digit (N.shiftr a 2))
        (String (base64Digit (N.shiftl (N.land a 3) 4)) "==")
  | [a; b] =>
      String (base64Digit (N.shiftr a 2))
        (String (base64Digit (N.lor (N.shiftl (N.land a 3) 4) (N.shiftr b 4)))
           (String (base64Digit (N.shiftl (N.land b 15) 2)) "="))
  | a :: b :: c :: r =>
      String (base64Digit (N.shiftr a 2))
        (String (base64Digit (N.lor (N.shiftl (N.land a 3) 4) (N.shiftr b 4)))
           (String (base64Digit (N.lor (N.shiftl (N.land b 15) 2) (N.shiftr c 6)))
              (String (base64Digit (N.land c 63)) (base64 r))))
  end.

End Js.

(** ** The static registries *)

Module Source.
Record t := {
  id : string;
  name : string;
  fullName : string;
  color : string;
  feeds : list string
}.
End Source.

Definition RSS_SOURCES : list Source.t :=
  [ {| Source.id := "hindu"; Source.name := "The Hindu"; Source.fullName := "The Hindu";
       Source.color := "#DC2626";
       Source.feeds :=
         ["https://www.thehindu.com/news/national/feeder/default.rss";
          "https://www.thehindu.com/opinion/feeder/default.rss";
          "https://www.thehindu.com/sci-tech/feeder/default.rss";
          "https://www.thehindu.com/business/Economy/feeder/default.rss";
          "https://www.thehindu.com/news/international/feeder/default.rss"] |};
    {| Source.id := "indianexpress"; Source.name := "Indian Express";
       Source.fullName := "The Indian Express"; Source.color := "#2563EB";
       Source.feeds :=
         ["https://indianexpress.com/section/india/feed/";
          "https://indianexpress.com/section/opinion/feed/";
          "https://indianexpress.com/section/explained/feed/";
          "https://indianexpress.com/section/economy/feed/";
          "https://indianexpress.com/section/world/feed/"] |};
    {| Source.id := "et"; Source.name := "Economic Times";
       Source.fullName := "The Economic Times"; Source.color := "#059669";
       Source.feeds :=
         ["https://economictimes.indiatimes.com/news/economy/rssfeeds/1373380680.cms";
          "https://economictimes.indiatimes.com/news/politics-and-nation/rssfeeds/1052732854.cms";
          "https://economictimes.indiatimes.com/environment/rssfeeds/22977979.cms";
          "https://economictimes.indiatimes.com/news/india/rssfeeds/13357270.cms"] |} ].

(** The object literal [UPSC_TOPICS]. Its keys are not integer-like, so
    [Object.entries], [Object.values] and [Object.keys] enumerate them in
    the order they are written: an association list. *)
Definition UPSC_TOPICS : list (string * list string) :=
  [ ("Polity & Governance",
      ["parliament"; "constitution"; "supreme court"; "high court";
       "election"; "amendment"; "bill"; "act"; "ministry"; "government";
       "cabinet"; "president"; "governor"; "lok sabha"; "rajya sabha";
       "judiciary"; "panchayat"; "governance"; "reform"; "policy";
       "commission"; "ordinance"]);
    ("Economy",
      ["gdp"; "inflation"; "rbi"; "sebi"; "budget"; "fiscal"; "monetary";
       "repo rate"; "economy"; "trade"; "export"; "import"; "fdi";
       "startup"; "msme"; "agriculture"; "msp"; "niti aayog"; "economic";
       "tax"; "gst"; "growth"; "market"; "rupee"; "investment";
       "revenue"; "finance"; "bank"]);
    ("Environment & Ecology",
      ["climate"; "biodiversity"; "forest"; "wildlife"; "pollution";
       "carbon"; "emission"; "renewable"; "solar"; "ozone"; "ramsar";
       "tiger"; "elephant"; "coral"; "wetland"; "deforestation";
       "net zero"; "cop"; "ipcc"; "ecology"; "conservation";
       "environment"; "water"; "river"; "drought"]);
    ("Science & Technology",
      ["isro"; "space"; "nasa"; "satellite"; "ai";
       "artificial intelligence"; "quantum"; "nuclear"; "research";
       "technology"; "5g"; "semiconductor"; "drone"; "cyber"; "digital";
       "blockchain"; "genomics"; "innovation"; "patent"; "rocket";
       "launch"]);
    ("International Relations",
      ["bilateral"; "treaty"; "summit"; "united nations"; "world bank";
       "imf"; "wto"; "g20"; "brics"; "sco"; "asean"; "nato";
       "geopolitics"; "diplomacy"; "foreign"; "sanctions"; "agreement";
       "alliance"; "visit"; "mou"; "quad"]);
    ("Social Issues",
      ["poverty"; "welfare"; "scheme"; "education"; "health";
       "nutrition"; "women"; "child"; "tribal"; "dalit"; "minority";
       "reservation"; "caste"; "disability"; "elderly"; "hunger";
       "literacy"; "inequality"; "yojana"; "programme"]);
    ("Defence & Security",
      ["defence"; "military"; "army"; "navy"; "air force"; "border";
       "security"; "terrorism"; "naxal"; "insurgency"; "weapon";
       "missile"; "drdo"; "iaf"; "coast guard"; "exercise"; "combat";
       "strategic"]);
    ("Infrastructure & Development",
      ["railway"; "highway"; "port"; "airport"; "metro"; "smart city";
       "urban"; "housing"; "construction"; "energy"; "power"; "grid";
       "infrastructure"; "expressway"; "corridor"; "project"; "bridge";
       "dam"]) ].

(** [Object.values(UPSC_TOPICS).flat()] *)
Definition ALL_KEYWORDS : list string := concat (map snd UPSC_TOPICS).

(** [Object.keys(UPSC_TOPICS)] *)
Definition topicNames : list string := map fst UPSC_TOPICS.

(** ** Relevance and classification *)

(** [(title + " " + description).toLowerCase()] *)
Definition itemText (title description : string) : string :=
  Js.toLowerCase (title ++ " " ++ description).

(** [keywords.some(k => text.includes(k))] *)
Definition someIncluded (text : string) (keywords : list string) : bool :=
  existsb (Js.includes text) keywords.

(** The loop of [detectTopics]: the names of the topics one of whose
    keywords occurs in [text], pushed in the order of the entries. *)
Fixpoint matchedTopics (text : string) (entries : list (string * list string))
  : list string :=
  match entries with
  | [] => []
  | (topic, keywords) :: rest =>
      if someIncluded text keywords
      then topic :: matchedTopics text rest
      else matchedTopics text rest
  end.

Definition detectTopics (title description : string) : list string :=
  let text := itemText title description in
  let matched := matchedTopics text UPSC_TOPICS in
  match matched with
  | [] => ["General"]
  | _ :: _ => take 3 matched
  end.

Definition isRelevant (title description : string) : bool :=
  let text := itemText title description in
  someIncluded text ALL_KEYWORDS
  || Js.includes text "india" || Js.includes text "government".

(** ** Exceptions *)

Inductive JsError :=
  | FetchError      (* the request failed on the network *)
  | AbortError      (* the 9000 ms timer aborted the request *)
  | BodyError       (* reading the body failed *)
  | XmlError        (* xml2js rejected the document *)
  | TypeError       (* a method called on a value that lacks it *)
  | RangeError.     (* toISOString of an invalid date *)

Inductive result (A : Type) :=
  | Ok (a : A)
  | Throw (e : JsError)
  | Pending.            (* the promise awaited never settles *)
Arguments Ok {A} a.
Arguments Throw {A} e.
Arguments Pending {A}.

Definition bind {A B} (r : result A) (k : A -> result B) : result B :=
  match r with
  | Ok a => k a
  | Throw e => Throw e
  | Pending => Pending
  end.

Notation "'let*' x ':=' r 'in' k" := (bind r (fun x => k))
  (at level 10, x name, r at level 100, k at level 200).

(** ** What xml2js hands over

    With [explicitArray: false, ignoreAttrs: false], a child element with
    text only is a string, and one with attributes is an object whose [_]
    is its text (if any) and whose [$] maps attribute names to values.
    The embedding covers entries whose fields occur at most once and have
    no element children. *)

Inductive XmlVal :=
  | XText (s : string)
  | XElem (text : option string) (attrs : gmap string string).

Record RawItem := {
  raw_title : option XmlVal;
  raw_description : option XmlVal;
  raw_summary : option XmlVal;
  raw_contentEncoded : option XmlVal;     (* item["content:encoded"] *)
  raw_link : option XmlVal;
  raw_pubDate : option XmlVal;
  raw_updated : option XmlVal;
  raw_dcDate : option XmlVal;             (* item["dc:date"] *)
  raw_category : option XmlVal;
  raw_mediaContent : option XmlVal;       (* item["media:content"] *)
  raw_mediaThumbnail : option XmlVal;     (* item["media:thumbnail"] *)
  raw_enclosure : option XmlVal
}.

(** The values the [||] chains of the item callback range over. *)
Inductive JsVal :=
  | JUndefined
  | JString (s : string)
  | JObject.

Definition truthy (v : JsVal) : bool :=
  match v with
  | JUndefined => false
  | JString s => negb (Js.isEmpty s)
  | JObject => true
  end.

(** [a || b] *)
Definition orElse (a b : JsVal) : JsVal := if truthy a then a else b.
Infix "<||>" := orElse (at level 51, left associativity).

(** [item.f] *)
Definition valueOf (f : option XmlVal) : JsVal :=
  match f with
  | None => JUndefined
  | Some (XText s) => JString s
  | Some (XElem _ _) => JObject
  end.

(** [item.f?._] *)
Definition textOf (f : option XmlVal) : JsVal :=
  match f with
  | Some (XElem (Some t) _) => JString t
  | _ => JUndefined
  end.

(** [item.f?.$?.name] *)
Definition attrOf (name : string) (f : option XmlVal) : JsVal :=
  match f with
  | Some (XElem _ attrs) =>
      match attrs !! name with
      | Some v => JString v
      | None => JUndefined
      end
  | _ => JUndefined
  end.

(** The receiver of [.replace(...)]: only a string has the method. *)
Definition asString (v : JsVal) : result string :=
  match v with
  | JString s => Ok s
  | _ => Throw TypeError
  end.

(** ** The normalized item *)

Module Article.
Record t := {
  id : string;
  title : string;
  description : string;
  link : string;
  pubDate : Z;
  source : string;
  sourceName : string;
  sourceFullName : string;
  sourceColor : string;
  category : string;
  topics : list string;
  imageUrl : string
}.
End Article.

(** [Buffer.from(s.slice(0, 80)).toString("base64")
      .replace(/[^a-zA-Z0-9]/g, "").slice(0, 24)] *)
Definition makeId (s : string) : string :=
  Js.slice0 24 (Js.keepChars Js.isAlnum (Js.base64 (Js.utf8 (Js.slice0 80 s)))).

(** [new Date(v)] for the raw publish time: the instant, or [None] for an
    invalid date. A string goes through [Date.parse]; an object turns into
    the text ["[object Object]"], which is no date. *)
Definition newDate (Date_parse : string -> option Z) (v : JsVal) : option Z :=
  match v with
  | JString s => Date_parse s
  | _ => None
  end.

(** [d.toISOString()] *)
Definition toISOString (d : option Z) : result Z :=
  match d with
  | Some t => Ok t
  | None => Throw RangeError
  end.

(** The fields of one entry, as the callback of
    [items.slice(0, 20).map(...)] resolves them. *)

(** [(item.title?._ || item.title || "").replace(/<[^>]*>/g, "").trim()] *)
Definition itemTitle (item : RawItem) : result string :=
  let* t := asString (textOf (raw_title item) <||> valueOf (raw_title item)
                      <||> JString "") in
  Ok (Js.trim (Js.stripTags t)).

Definition itemDescription (item : RawItem) : result string :=
  let* rawDesc :=
    asString (textOf (raw_description item) <||> valueOf (raw_description item)
              <||> textOf (raw_summary item) <||> valueOf (raw_summary item)
              <||> valueOf (raw_contentEncoded item) <||> JString "") in
  Ok (Js.slice0 500 (Js.trim (Js.collapseSpaces (Js.stripTags rawDesc)))).

Definition itemLink (item : RawItem) : JsVal :=
  attrOf "href" (raw_link item) <||> textOf (raw_link item)
  <||> valueOf (raw_link item) <||> JString "".

(** [item.pubDate || item.updated || item["dc:date"]], without the last
    operand of the chain. *)
Definition itemPubDateRaw (item : RawItem) : JsVal :=
  valueOf (raw_pubDate item) <||> valueOf (raw_updated item)
  <||> valueOf (raw_dcDate item).

(** [new Date(pubDateRaw)]: when the three fields are falsy the chain
    ends in [new Date().toISOString()], whose date is the clock [now]. *)
Definition itemDate (Date_parse : string -> option Z) (now : Z)
    (item : RawItem) : option Z :=
  if truthy (itemPubDateRaw item)
  then newDate Date_parse (itemPubDateRaw item)
  else Some now.

Definition itemCategory (item : RawItem) : result string :=
  let* c := asString (textOf (raw_category item) <||> valueOf (raw_category item)
                      <||> JString "") in
  Ok (Js.trim (Js.stripTags c)).

Definition itemImageUrl (item : RawItem) : JsVal :=
  attrOf "url" (raw_mediaContent item)
  <||> attrOf "url" (raw_mediaThumbnail item)
  <||> attrOf "url" (raw_enclosure item) <||> JString "".

(** The callback itself: [Ok None] is the [null] of a dropped entry. *)
Definition parseItem (Date_parse : string -> option Z) (now : Z)
    (src : Source.t) (item : RawItem) : result (option Article.t) :=
  let* title := itemTitle item in
  let* description := itemDescription item in
  let link := itemLink item in
  let date := itemDate Date_parse now item in
  let* category := itemCategory item in
  let imageUrl := itemImageUrl item in
  if Js.isEmpty title || negb (isRelevant title description) then Ok None
  else
    (* (link || title).slice(0, 80): an object has no slice; past this
       point [link] is a string, and [imageUrl] is one in any case *)
    let* idText := asString (link <||> JString title) in
    let* linkText := asString link in
    let* iso := toISOString date in
    let* image := asString imageUrl in
    Ok (Some {|
      Article.id := makeId idText;
      Article.title := title;
      Article.description := description;
      Article.link := linkText;
      Article.pubDate := iso;
      Article.source := Source.id src;
      Article.sourceName := Source.name src;
      Article.sourceFullName := Source.fullName src;
      Article.sourceColor := Source.color src;
      Article.category := if Js.isEmpty category then "General" else category;
      Article.topics := detectTopics title description;
      Article.imageUrl := image
    |}).

(** ** One endpoint: fetch, parse, normalize *)

Inductive OneOrMany (A : Type) :=
  | One (x : A)
  | Many (xs : list A).
Arguments One {A} x.
Arguments Many {A} xs.

(** [Array.isArray(v) ? v : [v]] *)
Definition asArray {A} (v : OneOrMany A) : list A :=
  match v with
  | One x => [x]
  | Many xs => xs
  end.

(** The two places of the parsed document the function looks at:
    [result?.rss?.channel?.item] and [result?.feed?.entry]. *)
Record FeedDoc := {
  rss_channel_item : option (OneOrMany RawItem);
  feed_entry : option (OneOrMany RawItem)
}.

Inductive XmlOutcome :=
  | XmlRejected                   (* parseStringPromise rejects *)
  | XmlParsed (doc : FeedDoc).

(** How the reading of the body goes. The timer is cleared once the
    headers are in ([clearTimeout(t)] stands before
    [await response.text()]), so nothing ends the reading of a body that
    stalls: the promise of [response.text()] then never settles. *)
Inductive BodyOutcome :=
  | BodyRejected                  (* response.text() rejects *)
  | BodyText (xml : XmlOutcome)   (* the text, as xml2js reads it *)
  | BodyNeverEnds.                (* the body stalls: no text, no rejection *)

Inductive FetchOutcome :=
  | NetworkFailure                (* fetch rejects *)
  | TimedOut                      (* ctrl.abort() after 9000 ms *)
  | Responded (ok : bool) (body : BodyOutcome).

(** Everything the function reads from outside during one request. *)
Record World := {
  Date_parse : string -> option Z;   (* Date.parse; None is NaN *)
  fetched : string -> FetchOutcome;  (* what the endpoint at a URL does *)
  settledAt : string -> nat;         (* when the promise of a URL settles *)
  clockAt : string -> nat -> Z;      (* the clock when entry i of a URL is mapped *)
  clockEnd : Z                       (* the clock when the response is built *)
}.

Definition awaitFetch (o : FetchOutcome) : result (bool * BodyOutcome) :=
  match o with
  | NetworkFailure => Throw FetchError
  | TimedOut => Throw AbortError
  | Responded ok body => Ok (ok, body)
  end.

Definition awaitText (b : BodyOutcome) : result XmlOutcome :=
  match b with
  | BodyRejected => Throw BodyError
  | BodyText xml => Ok xml
  | BodyNeverEnds => Pending
  end.

Definition awaitParse (x : XmlOutcome) : result FeedDoc :=
  match x with
  | XmlRejected => Throw XmlError
  | XmlParsed doc => Ok doc
  end.

Definition feedItems (doc : FeedDoc) : list RawItem :=
  match rss_channel_item doc with
  | Some v => asArray v
  | None =>
      match feed_entry doc with
      | Some v => asArray v
      | None => []
      end
  end.

(** [items.map(f)], entry by entry from index [i]; the first exception
    ends the map. *)
Fixpoint mapItems (f : nat -> RawItem -> result (option Article.t))
    (i : nat) (items : list RawItem) : result (list (option Article.t)) :=
  match items with
  | [] => Ok []
  | x :: rest =>
      let* y := f i x in
      let* ys := mapItems f (S i) rest in
      Ok (y :: ys)
  end.

(** [.filter(Boolean)]: the nulls go. *)
Fixpoint filterBoolean (l : list (option Article.t)) : list Article.t :=
  match l with
  | [] => []
  | Some a :: rest => a :: filterBoolean rest
  | None :: rest => filterBoolean rest
  end.

(** The [try] block of [parseFeed]. *)
Definition tryParseFeed (w : World) (url : string) (src : Source.t)
  : result (list Article.t) :=
  let* response := awaitFetch (fetched w url) in
  if negb (fst response) then Ok []
  else
    let* text := awaitText (snd response) in
    let* doc := awaitParse text in
    let items := feedItems doc in
    let* mapped :=
      mapItems (fun i item => parseItem (Date_parse w) (clockAt w url i) src item)
               0 (take 20 items) in
    Ok (filterBoolean mapped).

(** Does the promise of [parseFeed(url, source)] settle? It does not
    when an [await] of its [try] block never ends: no exception is thrown
    then, and the [catch] has nothing to catch. *)
Definition settles (w : World) (url : string) (src : Source.t) : bool :=
  match tryParseFeed w url src with
  | Pending => false
  | _ => true
  end.

(** [parseFeed]: the articles the endpoint hands over. The [catch] turns
    every exception into the empty list; an endpoint whose promise never
    settles hands over nothing. *)
Definition parseFeed (w : World) (url : string) (src : Source.t)
  : list Article.t :=
  match tryParseFeed w url src with
  | Ok l => l
  | Throw _ => []
  | Pending => []
  end.

(** ** The handler *)

Inductive Settled (A : Type) :=
  | Fulfilled (value : A)
  | Rejected (reason : JsError).
Arguments Fulfilled {A} value.
Arguments Rejected {A} reason.

(** [RSS_SOURCES.flatMap(source => source.feeds.map(url => ...))] *)
Definition endpoints : list (Source.t * string) :=
  flat_map (fun src => map (fun url => (src, url)) (Source.feeds src)) RSS_SOURCES.

(** [Promise.allSettled(allPromises)]: one outcome per promise, in the
    order of the array of promises, whenever each of them settles. The
    promise of [parseFeed] is fulfilled when it settles, since its body
    catches; [everySettles] tells whether all of them do. *)
Definition allSettled (w : World) : list (Settled (list Article.t)) :=
  map (fun e => Fulfilled (parseFeed w (snd e) (fst e))) endpoints.

(** [results.forEach(r => { if (r.status === "fulfilled") ... concat })] *)
Definition collect (results : list (Settled (list Article.t))) : list Article.t :=
  fold_left (fun acc r =>
               match r with
               | Fulfilled v => (acc ++ v)%list
               | Rejected _ => acc
               end) results [].

(** [title.toLowerCase().replace(/[^a-z0-9]/g, "").slice(0, 60)] *)
Definition dedupKey (t : string) : string :=
  Js.slice0 60 (Js.keepChars Js.isLowerAlnum (Js.toLowerCase t)).

(** The [filter] of the deduplication, with the set [seen] it mutates. *)
Fixpoint dedupFrom (seen : gset string) (l : list Article.t) : list Article.t :=
  match l with
  | [] => []
  | a :: rest =>
      if Js.isEmpty (Article.title a) then dedupFrom seen rest
      else
        let key := dedupKey (Article.title a) in
        if decide (key ∈ seen) then dedupFrom seen rest
        else a :: dedupFrom ({[key]} ∪ seen) rest
  end.

Definition dedup (l : list Article.t) : list Article.t := dedupFrom ∅ l.

(** The comparator [(a, b) => new Date(b.pubDate) - new Date(a.pubDate)]. *)
Definition byDateDesc (a b : Article.t) : Z :=
  (Article.pubDate b - Article.pubDate a)%Z.

(** [Array.prototype.sort] is a stable sort: [a] goes before [b] when the
    comparator is negative, and elements that compare equal keep their
    order. Written as an insertion sort, which puts an element in front of
    the first one it does not have to follow. *)
Fixpoint insertSorted (cmp : Article.t -> Article.t -> Z) (a : Article.t)
    (l : list Article.t) : list Article.t :=
  match l with
  | [] => [a]
  | b :: rest =>
      if (cmp a b <=? 0)%Z then a :: l else b :: insertSorted cmp a rest
  end.

Definition sort (cmp : Article.t -> Article.t -> Z) (l : list Article.t)
  : list Article.t :=
  foldr (insertSorted cmp) [] l.

(** [grouped = {}; RSS_SOURCES.forEach(s => { grouped[s.id] = []; })] *)
Definition emptyGroups : gmap string (list Article.t) :=
  fold_left (fun g s => <[Source.id s := []]> g) RSS_SOURCES ∅.

(** [if (grouped[a.source]) grouped[a.source].push(a)] *)
Definition pushBySource (g : gmap string (list Article.t)) (a : Article.t)
  : gmap string (list Article.t) :=
  match g !! Article.source a with
  | Some l => <[Article.source a := (l ++ [a])%list]> g
  | None => g
  end.

(** [if (!topicGrouped[t]) topicGrouped[t] = []; topicGrouped[t].push(a)] *)
Definition pushByTopic (a : Article.t) (g : gmap string (list Article.t))
    (t : string) : gmap string (list Article.t) :=
  match g !! t with
  | Some l => <[t := (l ++ [a])%list]> g
  | None => <[t := [a]]> g
  end.

Module Payload.
Record SourceInfo := {
  id : string;
  name : string;
  fullName : string;
  color : string
}.
Record t := {
  articles : list Article.t;
  grouped : gmap string (list Article.t);
  topicGrouped : gmap string (list Article.t);
  sources : list SourceInfo;
  topics : list string;
  lastUpdated : Z;
  total : nat
}.
End Payload.

(** [await Promise.allSettled(allPromises)] ends when every promise of
    the array settles, and never when one of them does not. *)
Definition everySettles (w : World) : bool :=
  forallb (fun e => settles w (snd e) (fst e)) endpoints.

(** The [try] block of the handler, up to [JSON.stringify]: the payload
    it builds once [Promise.allSettled] is fulfilled. *)
Definition aggregate (w : World) : Payload.t :=
  let results := allSettled w in
  let allArticles := collect results in
  let deduped := sort byDateDesc (dedup allArticles) in
  let grouped := fold_left pushBySource deduped emptyGroups in
  let topicGrouped :=
    fold_left (fun g a => fold_left (pushByTopic a) (Article.topics a) g)
              deduped ∅ in
  {| Payload.articles := take 250 deduped;
     Payload.grouped := grouped;
     Payload.topicGrouped := topicGrouped;
     Payload.sources :=
       map (fun s => {| Payload.id := Source.id s; Payload.name := Source.name s;
                        Payload.fullName := Source.fullName s;
                        Payload.color := Source.color s |}) RSS_SOURCES;
     Payload.topics := topicNames;
     Payload.lastUpdated := clockEnd w;
     Payload.total := length deduped |}.

Inductive Body :=
  | EmptyBody
  | JsonPayload (p : Payload.t)
  | JsonError (message : string).

Record HttpResponse := {
  statusCode : Z;
  headers : list (string * string);
  body : Body
}.

Definition corsHeaders : list (string * string) :=
  [ ("Content-Type", "application/json");
    ("Access-Control-Allow-Origin", "*");
    ("Access-Control-Allow-Methods", "GET, OPTIONS");
    ("Cache-Control", "public, max-age=300") ].

(** [exports.handler]: the response, or [None] when the handler never
    returns, which is what happens when [Promise.allSettled] stays
    pending. Nothing in the [try] block throws on the values of this
    embedding, so that the [catch] (status 500) has no input that reaches
    it. *)
Definition handler (w : World) (httpMethod : string) : option HttpResponse :=
  if String.eqb httpMethod "OPTIONS"
  then Some {| statusCode := 204; headers := corsHeaders; body := EmptyBody |}
  else if everySettles w
  then Some {| statusCode := 200; headers := corsHeaders;
               body := JsonPayload (aggregate w) |}
  else None.

(** ** What a response contains *)

(** The deduplicated articles in their sorted order, before the cut. *)
Definition ranked (w : World) : list Article.t :=
  sort byDateDesc (dedup (collect (allSettled w))).

Definition inGrouped (p : Payload.t) (a : Article.t) : Prop :=
  ∃ k l, Payload.grouped p !! k = Some l ∧ a ∈ l.

Definition inTopicGrouped (p : Payload.t) (a : Article.t) : Prop :=
  ∃ t l, Payload.topicGrouped p !! t = Some l ∧ a ∈ l.

Definition inResponse (p : Payload.t) (a : Article.t) : Prop :=
  a ∈ Payload.articles p ∨ inGrouped p a ∨ inTopicGrouped p a.

(** The articles of every endpoint with the URL they came from, in the
    order in which the handler merges them. *)
Definition tagged (w : World) : list (string * Article.t) :=
  flat_map (fun e => map (fun a => (snd e, a)) (parseFeed w (snd e) (fst e)))
           endpoints.

(** The text holds no keyword of any topic and neither anchor term. *)
Definition noKeyword (text : string) : Prop :=
  (∀ e k, e ∈ UPSC_TOPICS → k ∈ snd e → Js.includes text k = false)
  ∧ Js.includes text "india" = false
  ∧ Js.includes text "government" = false.

(** The ways in which one endpoint fails. *)
Inductive EndpointFails (w : World) (url : string) (src : Source.t) : Prop :=
  | fails_network : fetched w url = NetworkFailure → EndpointFails w url src
  | fails_timeout : fetched w url = TimedOut → EndpointFails w url src
  | fails_status body :
      fetched w url = Responded false body → EndpointFails w url src
  | fails_body :
      fetched w url = Responded true BodyRejected → EndpointFails w url src
  | fails_xml :
      fetched w url = Responded true (BodyText XmlRejected) →
      EndpointFails w url src
  | fails_exception e :
      tryParseFeed w url src = Throw e → EndpointFails w url src.

(** An entry with its three publish-time fields taken away. *)
Definition undated (item : RawItem) : RawItem :=
  {| raw_title := raw_title item;
     raw_description := raw_description item;
     raw_summary := raw_summary item;
     raw_contentEncoded := raw_contentEncoded item;
     raw_link := raw_link item;
     raw_pubDate := None;
     raw_updated := None;
     raw_dcDate := None;
     raw_category := raw_category item;
     raw_mediaContent := raw_mediaContent item;
     raw_mediaThumbnail := raw_mediaThumbnail item;
     raw_enclosure := raw_enclosure item |}.

(** [a] with another publish time. *)
Definition datedAt (t : Z) (a : Article.t) : Article.t :=
  {| Article.id := Article.id a;
     Article.title := Article.title a;
     Article.description := Article.description a;
     Article.link := Article.link a;
     Article.pubDate := t;
     Article.source := Article.source a;
     Article.sourceName := Article.sourceName a;
     Article.sourceFullName := Article.sourceFullName a;
     Article.sourceColor := Article.sourceColor a;
     Article.category := Article.category a;
     Article.topics := Article.topics a;
     Article.imageUrl := Article.imageUrl a |}.

(** The deduplication key of an article. *)
Definition keyOf (a : Article.t) : string := dedupKey (Article.title a).

(** [a] may stand before [b] in a list sorted by publish time, newest
    first. *)
Definition newerOrSame (a b : Article.t) : Prop :=
  (Article.pubDate b ≤ Article.pubDate a)%Z.

(** [x] is in the list that the group map [g] has under the key [t]. *)
Definition members (g : gmap string (list Article.t)) (t : string)
    (x : Article.t) : Prop :=
  ∃ l, g !! t = Some l ∧ x ∈ l.

(** What holds of every article an endpoint hands over. *)
Record normal (a : Article.t) : Prop := {
  normal_title : Js.isEmpty (Article.title a) = false;
  normal_relevant : isRelevant (Article.title a) (Article.description a) = true;
  normal_topics :
    Article.topics a = detectTopics (Article.title a) (Article.description a);
  normal_source : ∃ s, s ∈ RSS_SOURCES ∧ Article.source a = Source.id s
}.

(** A topic matches a text when one of its keywords lies in the text. *)
Definition topicMatches (text : string) (keywords : list string) : Prop :=
  ∃ k, k ∈ keywords ∧ Js.includes text k = true.

(** The names of the matching topics, in the order of the taxonomy. *)
Definition matchingTopics (text : string) : list string :=
  map fst (filter (fun e => someIncluded text (snd e) = true) UPSC_TOPICS).

(** Two worlds that differ at most in what the endpoint [url] does. *)
Definition agreeExcept (url : string) (w w' : World) : Prop :=
  Date_parse w' = Date_parse w
  ∧ ∀ u, u ≠ url →
      fetched w' u = fetched w u ∧ ∀ i, clockAt w' u i = clockAt w u i.


(** Grouping consistency by identifier: whatever a group map lists has
    its identifier in the top-level list. *)
Definition groupsWithinArticles (w : World) : Prop :=
  ∀ a, inGrouped (aggregate w) a ∨ inTopicGrouped (aggregate w) a →
       ∃ b, b ∈ Payload.articles (aggregate w) ∧ Article.id b = Article.id a.

(** ** Sample inputs *)

Module Sample.

(** An entry with a plain title and description and, maybe, a [pubDate]. *)
Definition entry (t d : string) (date : option string) : RawItem :=
  {| raw_title := Some (XText t);
     raw_description := Some (XText d);
     raw_summary := None;
     raw_contentEncoded := None;
     raw_link := None;
     raw_pubDate := XText <$> date;
     raw_updated := None;
     raw_dcDate := None;
     raw_category := None;
     raw_mediaContent := None;
     raw_mediaThumbnail := None;
     raw_enclosure := None |}.

Definition rssOf (items : list RawItem) : FetchOutcome :=
  Responded true
    (BodyText (XmlParsed {| rss_channel_item := Some (Many items);
                            feed_entry := None |})).

Definition atomOf (items : list RawItem) : FetchOutcome :=
  Responded true
    (BodyText (XmlParsed {| rss_channel_item := None;
                            feed_entry := Some (Many items) |})).

(** Two dates that [Date.parse] reads, and their instants; this sample
    parser knows no other text. *)
Definition dateParse (s : string) : option Z :=
  if String.eqb s "2024-01-01T00:00:00.000Z" then Some 1704067200000%Z
  else if String.eqb s "Tue, 02 Jan 2024 00:00:00 GMT" then Some 1704153600000%Z
  else None.

Definition hinduNational : string :=
  "https://www.thehindu.com/news/national/feeder/default.rss".
Definition expressIndia : string :=
  "https://indianexpress.com/section/india/feed/".
Definition etEconomy : string :=
  "https://economictimes.indiatimes.com/news/economy/rssfeeds/1373380680.cms".

Definition hindu : Source.t :=
  {| Source.id := "hindu"; Source.name := "The Hindu";
     Source.fullName := "The Hindu"; Source.color := "#DC2626";
     Source.feeds :=
       ["https://www.thehindu.com/news/national/feeder/default.rss";
        "https://www.thehindu.com/opinion/feeder/default.rss";
        "https://www.thehindu.com/sci-tech/feeder/default.rss";
        "https://www.thehindu.com/business/Economy/feeder/default.rss";
        "https://www.thehindu.com/news/international/feeder/default.rss"] |}.

(** A world from a table of answers; an endpoint not in the table is
    unreachable. Every promise settles at instant [0], and the clock
    stands at noon of 2 January 2024. *)
Definition worldOf (answers : gmap string FetchOutcome)
    (settled : gmap string nat) : World :=
  {| Date_parse := dateParse;
     fetched := fun url => default NetworkFailure (answers !! url);
     settledAt := fun url => default 0 (settled !! url);
     clockAt := fun _ _ => 1704196800000%Z;
     clockEnd := 1704196800000%Z |}.

(** An ordinary request: two feeds answer, one times out, the rest are
    unreachable. *)
Definition newsday : World :=
  worldOf
    (<[hinduNational :=
         rssOf [entry "Parliament passes new bill on GST" "reform"
                      (Some "2024-01-01T00:00:00.000Z");
                entry "India wins the series" "<p>Cricket</p>" None;
                entry "Celebrity gossip" "Nothing to see" None]]>
     (<[expressIndia :=
          atomOf [entry "Budget session begins" ""
                        (Some "Tue, 02 Jan 2024 00:00:00 GMT")]]>
      (<[etEconomy := TimedOut]> ∅)))
    ∅.

(** One entry of a feed carries a date that is no date. *)
Definition misdatedEntry : RawItem :=
  entry "Parliament passes new bill on GST" "reform" (Some "not a date").

Definition misdatedDoc : FeedDoc :=
  {| rss_channel_item :=
       Some (Many [entry "India wins the series" "Cricket" None; misdatedEntry]);
     feed_entry := None |}.

Definition misdated : World :=
  worldOf
    (<[hinduNational := Responded true (BodyText (XmlParsed misdatedDoc))]> ∅)
    ∅.

(** The same feed with the date taken away from that entry. *)
Definition redated : World :=
  worldOf
    (<[hinduNational :=
         rssOf [entry "India wins the series" "Cricket" None;
                undated misdatedEntry]]> ∅)
    ∅.

(** Every endpoint answers with a feed of one entry of its own, but the
    first endpoint of the Economic Times, which does what [slow] says. *)
Definition allButOne (slow : FetchOutcome) : World :=
  {| Date_parse := dateParse;
     fetched := fun url =>
       if String.eqb url etEconomy then slow
       else rssOf [entry (String.append "India news from " url) "" None];
     settledAt := fun _ => 0;
     clockAt := fun _ _ => 1704196800000%Z;
     clockEnd := 1704196800000%Z |}.

(** That endpoint sends the headers of a 200 and a body that never
    ends. *)
Definition stalled : World := allButOne (Responded true BodyNeverEnds).

(** That endpoint is aborted by the timer, before any header. *)
Definition aborted : World := allButOne TimedOut.


(** An article that only an anchor term makes relevant. *)
Definition anchored : World :=
  worldOf (<[hinduNational := rssOf [entry "india" "" None]]> ∅) ∅.

Fixpoint indexOf (url : string) (l : list string) : nat :=
  match l with
  | [] => 0
  | u :: rest => if String.eqb u url then 0 else S (indexOf url rest)
  end.

Definition numbered (n : nat) : RawItem :=
  entry ("india " ++ NilEmpty.string_of_uint (Nat.to_uint n)) "" None.

(** Every one of the 14 endpoints answers with 20 entries, all relevant
    and with titles of their own: entry [j] of endpoint [k] is number
    [20 * k + j]. *)
Definition crowded : World :=
  {| Date_parse := dateParse;
     fetched := fun url =>
       let k := indexOf url (map snd endpoints) in
       rssOf (map (fun j => numbered (20 * k + j)) (seq 0 20));
     settledAt := fun _ => 0;
     clockAt := fun _ _ => 1704196800000%Z;
     clockEnd := 1704196800000%Z |}.

(** The article of an entry that has a plain title and description and
    no link, category or image. *)
Definition plain (src : Source.t) (t d : string) (date : Z)
    (labels : list string) : Article.t :=
  {| Article.id := makeId t;
     Article.title := t;
     Article.description := d;
     Article.link := "";
     Article.pubDate := date;
     Article.source := Source.id src;
     Article.sourceName := Source.name src;
     Article.sourceFullName := Source.fullName src;
     Article.sourceColor := Source.color src;
     Article.category := "General";
     Article.topics := labels;
     Article.imageUrl := "" |}.

Definition indianexpress : Source.t := default hindu (RSS_SOURCES !! 1%nat).
Definition et : Source.t := default hindu (RSS_SOURCES !! 2%nat).

(** What [crowded] makes of entry [n], for an entry of the Economic
    Times. *)
Definition crowdedArticle (n : nat) : Article.t :=
  plain et ("india " ++ NilEmpty.string_of_uint (Nat.to_uint n)) ""
        1704196800000%Z ["General"].

(** Articles of [newsday]. *)
Definition newsdaySeries : Article.t :=
  plain hindu "India wins the series" "Cricket" 1704196800000%Z ["General"].
Definition newsdayBudget : Article.t :=
  plain indianexpress "Budget session begins" "" 1704153600000%Z ["Economy"].
Definition newsdayBill : Article.t :=
  plain hindu "Parliament passes new bill on GST" "reform" 1704067200000%Z
        ["Polity & Governance"; "Economy"].

(** What the misdated entry becomes once its date is taken away. *)
Definition redatedBill : Article.t :=
  plain hindu "Parliament passes new bill on GST" "reform" 1704196800000%Z
        ["Polity & Governance"; "Economy"].


(** The article of [anchored]. *)
Definition anchoredArticle : Article.t :=
  plain hindu "india" "" 1704196800000%Z ["General"].

End Sample.

(** ** Further notions about the fields of an article *)

(** The text holds a markup tag: a ["<"] with a [">"] somewhere after it,
    which is what the regular expression [/<[^>]*>/] finds. *)
Fixpoint hasTag (s : string) : bool :=
  match s with
  | EmptyString => false
  | String c r => (Js.isLt c && Js.hasGt r) || hasTag r
  end.

(** The text neither starts nor ends with white space. *)
Definition trimmed (s : string) : Prop := Js.trim s = s.

(** Every character of the text is in the class. *)
Definition allChars (class : ascii → bool) (s : string) : Prop :=
  Forall (fun c => class c = true) (list_ascii_of_string s).

(** The code unit is an ASCII one, a single byte of UTF-8. *)
Definition isAscii (c : ascii) : bool := (Js.code c <? 128)%N.

(** ** Further sample inputs *)

Module More.

(** An entry with a plain title and a plain link. *)
Definition linked (t l : string) : RawItem :=
  {| raw_title := Some (XText t);
     raw_description := None;
     raw_summary := None;
     raw_contentEncoded := None;
     raw_link := Some (XText l);
     raw_pubDate := None;
     raw_updated := None;
     raw_dcDate := None;
     raw_category := None;
     raw_mediaContent := None;
     raw_mediaThumbnail := None;
     raw_enclosure := None |}.

(** The article of [linked t l], for an entry of The Hindu that is
    relevant by the anchor term alone. *)
Definition linkedArticle (t l : string) : Article.t :=
  {| Article.id := makeId l;
     Article.title := t;
     Article.description := "";
     Article.link := l;
     Article.pubDate := 1704196800000%Z;
     Article.source := "hindu";
     Article.sourceName := "The Hindu";
     Article.sourceFullName := "The Hindu";
     Article.sourceColor := "#DC2626";
     Article.category := "General";
     Article.topics := ["General"];
     Article.imageUrl := "" |}.

(** An Atom entry whose category is the usual attribute-only element,
    [<category term="economy"/>]. *)
Definition termEntry : RawItem :=
  {| raw_title := Some (XText "India budget");
     raw_description := None;
     raw_summary := Some (XText "The budget session");
     raw_contentEncoded := None;
     raw_link := Some (XElem None {["href" := "https://example.org/a"]});
     raw_pubDate := None;
     raw_updated := None;
     raw_dcDate := None;
     raw_category := Some (XElem None {["term" := "economy"]});
     raw_mediaContent := None;
     raw_mediaThumbnail := None;
     raw_enclosure := None |}.

Definition termDoc : FeedDoc :=
  {| rss_channel_item := None;
     feed_entry :=
       Some (Many [Sample.entry "India wins the series" "Cricket" None;
                   termEntry]) |}.

(** A feed of The Hindu holds [termEntry] after an ordinary entry. *)
Definition termWorld : World :=
  Sample.worldOf
    (<[Sample.hinduNational := Responded true (BodyText (XmlParsed termDoc))]> ∅)
    ∅.

Definition monsoonLink : string :=
  "https://www.thehindu.com/news/national/monsoon/article1.ece".
Definition cricketLink : string :=
  "https://www.thehindu.com/sport/cricket/article2.ece".

End More.

(** ** The service worker ([public/sw.js])

    The worker keeps a [CacheStorage]: named caches in the order of
    their creation, each a map from the URL of a GET request to the
    response stored for it. What the Cache API does is written out:
    [caches.open] creates a missing cache at the end, [caches.match] takes
    the first cache that has the URL, [cache.put] replaces what the URL
    had and rejects a request that is no GET and a response of status
    206, and [cache.addAll] stores all or nothing. Responses carry no
    [Vary] header, and URLs are http(s) ones. A handler is given with
    the storage as it is once the promises it starts have settled. *)

Module ServiceWorker.

Record Request := {
  url : string;
  method : string
}.

Record Response := {
  status : Z;
  body : string
}.

(** [res.ok] *)
Definition ok (res : Response) : bool :=
  ((200 <=? status res) && (status res <=? 299))%Z.

Definition CACHE_NAME : string := "upsc-samachar-v1".

Definition STATIC_ASSETS : list string := ["/"; "/index.html"].

(** [cache.match(request)] *)
Definition cacheMatch (c : gmap string Response) (req : Request)
  : option Response :=
  if String.eqb (method req) "GET" then c !! url req else None.

(** [caches.match(request)] *)
Fixpoint cachesMatch (st : list (string * gmap string Response))
    (req : Request) : option Response :=
  match st with
  | [] => None
  | (_, c) :: rest =>
      match cacheMatch c req with
      | Some res => Some res
      | None => cachesMatch rest req
      end
  end.

Definition hasCache (name : string) (st : list (string * gmap string Response))
  : bool :=
  existsb (fun kc => String.eqb (fst kc) name) st.

(** [caches.open(name)]: the storage afterwards. *)
Definition cachesOpen (name : string) (st : list (string * gmap string Response))
  : list (string * gmap string Response) :=
  if hasCache name st then st else st ++ [(name, ∅)].

(** [cache.put(request, response)]: the cache afterwards, or [None]
    when the promise rejects. *)
Definition cachePut (req : Request) (res : Response)
    (c : gmap string Response) : option (gmap string Response) :=
  if String.eqb (method req) "GET" && negb (status res =? 206)%Z
  then Some (<[url req := res]> c)
  else None.

(** The storage with the cache [name] replaced by [f] of it. *)
Fixpoint updateCache (name : string)
    (f : gmap string Response → gmap string Response)
    (st : list (string * gmap string Response))
  : list (string * gmap string Response) :=
  match st with
  | [] => []
  | (k, c) :: rest =>
      if String.eqb k name then (k, f c) :: rest
      else (k, c) :: updateCache name f rest
  end.

(** The cache named [CACHE_NAME], if the storage has it. *)
Fixpoint currentCache (st : list (string * gmap string Response))
  : option (gmap string Response) :=
  match st with
  | [] => None
  | (k, c) :: rest =>
      if String.eqb k CACHE_NAME then Some c else currentCache rest
  end.

(** [caches.open(CACHE_NAME).then(cache => cache.put(request, clone))] *)
Definition putInCurrent (req : Request) (res : Response)
    (st : list (string * gmap string Response))
  : list (string * gmap string Response) :=
  let st' := cachesOpen CACHE_NAME st in
  updateCache CACHE_NAME
    (fun c => match cachePut req res c with
              | Some c' => c'
              | None => c
              end) st'.

Section Worker.

(** The origin of the worker, and [new URL(u).pathname]. *)
Variable origin : string.
Variable pathnameOf : string → string.

(** [url.pathname.includes('/api/') || url.pathname.includes('/.netlify/')] *)
Definition isApi (req : Request) : bool :=
  Js.includes (pathnameOf (url req)) "/api/"
  || Js.includes (pathnameOf (url req)) "/.netlify/".

(** The listener of [fetch]. [answer] is what [fetch(e.request)] comes
    to if the listener calls it: a response, or [None] when it rejects.
    The result is what the page gets, [None] for a network error, and the
    storage afterwards. *)
Definition onFetch (req : Request) (answer : option Response)
    (st : list (string * gmap string Response))
  : option Response * list (string * gmap string Response) :=
  if isApi req then
    (* network first *)
    match answer with
    | Some res => (Some res, putInCurrent req res st)
    | None => (cachesMatch st req, st)
    end
  else
    (* cache first *)
    match cachesMatch st req with
    | Some cached => (Some cached, st)
    | None =>
        match answer with
        | Some res => (Some res, if ok res then putInCurrent req res st else st)
        | None => (None, st)
        end
    end.

(** The listener of [activate]: every cache but the current one goes. *)
Definition onActivate (st : list (string * gmap string Response))
  : list (string * gmap string Response) :=
  filter (fun kc => fst kc = CACHE_NAME) st.

(** The request [cache.addAll] makes for a static asset. *)
Definition assetRequest (path : string) : Request :=
  {| url := String.append origin path; method := "GET" |}.

(** [cache.addAll(requests)] with the answers of the network: it
    rejects when a fetch fails or a response is not ok or has status
    206. *)
Definition addAllAccepts (answers : list (Request * option Response)) : bool :=
  forallb (fun ra => match snd ra with
                     | Some res => ok res && negb (status res =? 206)%Z
                     | None => false
                     end) answers.

(** What [cache.addAll] stores when it does not reject. *)
Definition storeAll (answers : list (Request * option Response))
    (c : gmap string Response) : gmap string Response :=
  fold_left (fun c ra => match snd ra with
                         | Some res => <[url (fst ra) := res]> c
                         | None => c
                         end) answers c.

(** The listener of [install]: whether the promise given to [waitUntil]
    is fulfilled, and the storage afterwards. *)
Definition onInstall (net : Request → option Response)
    (st : list (string * gmap string Response))
  : bool * list (string * gmap string Response) :=
  let st' := cachesOpen CACHE_NAME st in
  let answers := map (fun path => (assetRequest path, net (assetRequest path)))
                     STATIC_ASSETS in
  if addAllAccepts answers
  then (true, updateCache CACHE_NAME (storeAll answers) st')
  else (false, st').

(** What happens to the worker, one event after the other. *)
Inductive Event :=
  | Fetch (req : Request) (answer : option Response)
  | Activate.

Definition step (st : list (string * gmap string Response)) (ev : Event)
  : list (string * gmap string Response) :=
  match ev with
  | Fetch req answer => snd (onFetch req answer st)
  | Activate => onActivate st
  end.

Definition run (events : list Event) (st : list (string * gmap string Response))
  : list (string * gmap string Response) :=
  fold_left step events st.

End Worker.

(** The storage holds no cache but, maybe, the current one: what
    [activate] leaves. *)
Definition activated (st : list (string * gmap string Response)) : Prop :=
  st = [] ∨ ∃ c, st = [(CACHE_NAME, c)].

(** A sample site: URLs are the origin followed by the path. *)
Definition sampleOrigin : string := "https://upsc-samachar.netlify.app".

Fixpoint dropChars (n : nat) (s : string) : string :=
  match n, s with
  | O, _ => s
  | S _, EmptyString => EmptyString
  | S n', String _ r => dropChars n' r
  end.

Definition isQueryMark (c : ascii) : bool :=
  Ascii.eqb c "?" || Ascii.eqb c "#".

(** The text up to the first ["?"] or ["#"]. *)
Fixpoint untilQuery (s : string) : string :=
  match s with
  | EmptyString => EmptyString
  | String c r => if isQueryMark c then EmptyString else String c (untilQuery r)
  end.

(** The path that follows an authority: from the first ["/"] up to the
    query or the fragment, and ["/"] when the authority ends the URL. *)
Fixpoint pathAfterAuthority (s : string) : string :=
  match s with
  | EmptyString => "/"
  | String c r =>
      if Ascii.eqb c "/" then untilQuery s
      else if isQueryMark c then "/"
      else pathAfterAuthority r
  end.

(** [new URL(u).pathname] for an absolute http(s) URL that has no dot
    segment and no character to escape in its path. *)
Definition samplePathname (u : string) : string :=
  if Js.startsWith "https://" u then pathAfterAuthority (dropChars 8 u)
  else if Js.startsWith "http://" u then pathAfterAuthority (dropChars 7 u)
  else pathAfterAuthority u.

Definition apiRequest : Request :=
  {| url := "https://upsc-samachar.netlify.app/api/news"; method := "GET" |}.

Definition indexRequest : Request :=
  {| url := "https://upsc-samachar.netlify.app/index.html"; method := "GET" |}.

Definition goodNews : Response := {| status := 200; body := "{articles}" |}.
Definition badNews : Response := {| status := 500; body := "{error}" |}.
Definition oldPage : Response := {| status := 200; body := "<html>v1</html>" |}.
Definition newPage : Response := {| status := 200; body := "<html>v2</html>" |}.
Definition stalePage : Response := {| status := 200; body := "<html>v0</html>" |}.

Definition rootRequest : Request :=
  {| url := "https://upsc-samachar.netlify.app/"; method := "GET" |}.

(** A storage with an older cache, which holds the news and a stale
    root page, and the current cache, which holds the index page. *)
Definition upgraded : list (string * gmap string Response) :=
  [("upsc-samachar-v0",
    <[url apiRequest := goodNews]> {[url rootRequest := stalePage]});
   (CACHE_NAME, {[url indexRequest := oldPage]})].

End ServiceWorker.

(** * Properties *)

Local Open Scope list_scope.

(** ** The exception monad *)

Lemma bind_Ok {A B} (r : result A) (k : A → result B) (b : B) :
  bind r k = Ok b → ∃ a, r = Ok a ∧ k a = Ok b.
Proof. destruct r as [a|e|]; simpl; [eauto | discriminate | discriminate]. Qed.

Ltac inv_bind H :=
  let x := fresh "x" in
  let Hx := fresh "Hx" in
  apply bind_Ok in H as (x & Hx & H).

(** ** Substrings *)

Lemma startsWith_spec (p s : string) :
  Js.startsWith p s = true ↔ ∃ post, s = String.append p post.
Proof.
  revert s. induction p as [|a p IH]; intros s; simpl.
  - split; [intros _; by exists s | done].
  - destruct s as [|b s].
    + split; [done | intros [post Hpost]; discriminate].
    + destruct (Ascii.eqb_spec a b) as [->|Hne].
      * rewrite IH. split.
        -- intros [post ->]. by exists post.
        -- intros [post Hpost]. simpl in Hpost. injection Hpost as ->.
           by exists post.
      * split; [done|]. intros [post Hpost]. simpl in Hpost.
        injection Hpost as <- _. done.
Qed.

(** [Js.includes s k] holds exactly when [k] lies somewhere inside [s]. *)
Lemma includes_spec (s k : string) :
  Js.includes s k = true ↔
  ∃ pre post, s = String.append pre (String.append k post).
Proof.
  induction s as [|c s IH]; simpl.
  - rewrite orb_false_r, startsWith_spec. split.
    + intros [post ->]. by exists EmptyString, post.
    + intros ([|c pre] & post & H); simpl in H; [by exists post | discriminate].
  - rewrite orb_true_iff, startsWith_spec, IH. split.
    + intros [[post ->]|(pre & post & ->)].
      * by exists EmptyString, post.
      * by exists (String c pre), post.
    + intros ([|c' pre] & post & H); simpl in H.
      * left. by exists post.
      * right. injection H as -> ->. by exists pre, post.
Qed.

(** ** Classification *)

Lemma matchedTopics_app text l1 l2 :
  matchedTopics text (l1 ++ l2) = matchedTopics text l1 ++ matchedTopics text l2.
Proof.
  induction l1 as [|[t k] l1 IH]; simpl; [done|].
  destruct (someIncluded text k); simpl; by rewrite IH.
Qed.

Lemma matchedTopics_none text l :
  Forall (fun e => someIncluded text (snd e) = false) l →
  matchedTopics text l = [].
Proof.
  induction 1 as [|[t k] l Hk _ IH]; simpl; [done|].
  simpl in Hk. by rewrite Hk.
Qed.

Lemma matchedTopics_elem text l t :
  t ∈ matchedTopics text l →
  ∃ kws, (t, kws) ∈ l ∧ someIncluded text kws = true.
Proof.
  induction l as [|[t' k] l IH]; simpl; [by intros ?%elem_of_nil|].
  destruct (someIncluded text k) eqn:Hk.
  - intros [->|Hin]%elem_of_cons.
    + exists k. split; [left | done].
    + destruct (IH Hin) as (kws & ? & ?). exists kws. split; [by right | done].
  - intros Hin. destruct (IH Hin) as (kws & ? & ?).
    exists kws. split; [by right | done].
Qed.

Lemma detectTopics_length t d :
  (1 ≤ length (detectTopics t d) ≤ 3)%nat.
Proof.
  unfold detectTopics.
  destruct (matchedTopics (itemText t d) UPSC_TOPICS) as [|x m]; simpl; [lia|].
  rewrite length_take. lia.
Qed.

Lemma detectTopics_label t d x :
  x ∈ detectTopics t d → x ∈ topicNames ∨ x = "General".
Proof.
  unfold detectTopics.
  destruct (matchedTopics (itemText t d) UPSC_TOPICS) as [|y m] eqn:Hm.
  - intros ->%list_elem_of_singleton. by right.
  - intros Hx%(subseteq_take 3). rewrite <- Hm in Hx.
    apply matchedTopics_elem in Hx as (kws & Hin & _).
    left. unfold topicNames. apply list_elem_of_fmap. by exists (x, kws).
Qed.

(** Without a keyword and without an anchor term the text is not
    relevant. *)
Lemma noKeyword_not_relevant t d :
  noKeyword (itemText t d) → isRelevant t d = false.
Proof.
  intros (Hkw & Hindia & Hgov). unfold isRelevant.
  rewrite Hindia, Hgov, !orb_false_r.
  unfold someIncluded. apply not_true_is_false.
  intros (k & Hk & Hinc)%existsb_exists.
  unfold ALL_KEYWORDS in Hk.
  apply in_concat in Hk as (kws & Hkws & Hk).
  apply in_map_iff in Hkws as (e & <- & He).
  apply list_elem_of_In in Hk, He.
  rewrite (Hkw e k He Hk) in Hinc. discriminate.
Qed.

Lemma relevant_has_keyword t d :
  isRelevant t d = true → ¬ noKeyword (itemText t d).
Proof. intros H Hno. apply noKeyword_not_relevant in Hno. congruence. Qed.

(** ** One entry *)

Lemma parseItem_Some P now src item a :
  parseItem P now src item = Ok (Some a) →
  ∃ t d,
    itemTitle item = Ok t ∧ itemDescription item = Ok d
    ∧ Js.isEmpty t = false ∧ isRelevant t d = true
    ∧ itemDate P now item = Some (Article.pubDate a)
    ∧ Article.title a = t ∧ Article.description a = d
    ∧ Article.source a = Source.id src
    ∧ Article.topics a = detectTopics t d.
Proof.
  unfold parseItem. intros H.
  inv_bind H. rename x into t, Hx into Ht.
  inv_bind H. rename x into d, Hx into Hd.
  inv_bind H. rename x into c, Hx into Hc.
  destruct (Js.isEmpty t) eqn:Hempty; simpl in H; [discriminate|].
  destruct (isRelevant t d) eqn:Hrel; simpl in H; [|discriminate].
  inv_bind H. inv_bind H. inv_bind H. inv_bind H.
  injection H as <-. simpl.
  exists t, d. repeat split; try done.
  destruct (itemDate P now item); simpl in *; congruence.
Qed.

(** ** One endpoint *)

Lemma mapItems_Ok f i l ys :
  mapItems f i l = Ok ys →
  ∀ y, y ∈ ys → ∃ j x, l !! j = Some x ∧ f (i + j) x = Ok y.
Proof.
  revert i ys. induction l as [|x l IH]; intros i ys H; simpl in H.
  - injection H as <-. by intros y ?%elem_of_nil.
  - inv_bind H. rename x0 into y0, Hx into Hy0.
    inv_bind H. rename x0 into ys0, Hx into Hys0.
    injection H as <-.
    intros y [->|Hy]%elem_of_cons.
    + exists 0, x. by rewrite Nat.add_0_r.
    + destruct (IH _ _ Hys0 y Hy) as (j & x' & Hj & Hf).
      exists (S j), x'. by rewrite Nat.add_succ_r.
Qed.

Lemma asString_settles v : asString v ≠ Pending.
Proof. by destruct v. Qed.

(** The callback awaits nothing: it returns or it throws. *)
Lemma parseItem_settles P now src item : parseItem P now src item ≠ Pending.
Proof.
  assert (Htext : ∀ v (k : string → result string),
            (∀ x, k x ≠ Pending) → bind (asString v) k ≠ Pending).
  { intros v k Hk. destruct v; simpl; first [done | apply Hk]. }
  unfold parseItem.
  destruct (itemTitle item) as [t|e|] eqn:Ht; cbn [bind]; [|done|].
  2: { by apply Htext in Ht. }
  destruct (itemDescription item) as [d|e|] eqn:Hd; cbn [bind]; [|done|].
  2: { by apply Htext in Hd. }
  destruct (itemCategory item) as [c|e|] eqn:Hc; cbn [bind]; [|done|].
  2: { by apply Htext in Hc. }
  destruct (Js.isEmpty t || negb (isRelevant t d)); [done|].
  destruct (asString (itemLink item <||> JString t)) as [idText|e|] eqn:Hid;
    cbn [bind]; [|done|by apply asString_settles in Hid].
  destruct (asString (itemLink item)) as [l|e|] eqn:Hl;
    cbn [bind]; [|done|by apply asString_settles in Hl].
  destruct (itemDate P now item) as [tm|]; cbn [toISOString bind]; [|done].
  destruct (asString (itemImageUrl item)) as [img|e|] eqn:Himg;
    cbn [bind]; [done|done|by apply asString_settles in Himg].
Qed.

Lemma mapItems_Throw f i l j x e :
  (∀ k y, f k y ≠ Pending) →
  l !! j = Some x → f (i + j) x = Throw e → ∃ e', mapItems f i l = Throw e'.
Proof.
  intros Hsettles.
  revert i j. induction l as [|x0 l IH]; intros i [|j] Hj Hf; simpl in *;
    try discriminate.
  - injection Hj as ->. rewrite Nat.add_0_r in Hf. rewrite Hf. simpl. eauto.
  - destruct (f i x0) eqn:Hx0; simpl; [|eauto|by apply Hsettles in Hx0].
    rewrite Nat.add_succ_r in Hf.
    destruct (IH (S i) j Hj Hf) as [e' ->]. simpl. eauto.
Qed.

Lemma elem_filterBoolean a l : a ∈ filterBoolean l ↔ Some a ∈ l.
Proof.
  induction l as [|[b|] l IH]; simpl.
  - by rewrite !elem_of_nil.
  - rewrite !elem_of_cons, IH. split; intros [?|?]; auto; left; congruence.
  - rewrite elem_of_cons, IH. split; [auto | intros [?|?]; [discriminate | done]].
Qed.

(** Where an article of an endpoint comes from: an entry among the first
    twenty of a document that arrived and parsed. *)
Lemma parseFeed_elem w url src a :
  a ∈ parseFeed w url src →
  ∃ doc j item,
    fetched w url = Responded true (BodyText (XmlParsed doc))
    ∧ (j < 20)%nat ∧ feedItems doc !! j = Some item
    ∧ parseItem (Date_parse w) (clockAt w url j) src item = Ok (Some a).
Proof.
  unfold parseFeed. destruct (tryParseFeed w url src) as [l|e|] eqn:H;
    [|by intros ?%elem_of_nil..].
  unfold tryParseFeed in H.
  destruct (fetched w url) as [| |ok body]; simpl in H; try discriminate.
  destruct ok; simpl in H; [|injection H as <-; by intros ?%elem_of_nil].
  destruct body as [|[|doc]|]; simpl in H; try discriminate.
  inv_bind H. injection H as <-.
  intros Ha%elem_filterBoolean.
  destruct (mapItems_Ok _ _ _ _ Hx _ Ha) as (j & item & Hj & Hitem).
  apply lookup_take_Some in Hj as [Hj Hlt].
  exists doc, j, item. done.
Qed.

Lemma parseFeed_fails w url src :
  EndpointFails w url src → parseFeed w url src = [].
Proof.
  unfold parseFeed.
  intros [H|H|body H|H|H|e H]; [unfold tryParseFeed; rewrite H ..|by rewrite H];
    done.
Qed.

(** An exception in one entry empties the endpoint. *)
Lemma parseFeed_item_throws w url src doc j item e :
  fetched w url = Responded true (BodyText (XmlParsed doc)) →
  feedItems doc !! j = Some item → (j < 20)%nat →
  parseItem (Date_parse w) (clockAt w url j) src item = Throw e →
  parseFeed w url src = [].
Proof.
  intros Hdoc Hj Hlt Hthrow. apply parseFeed_fails.
  destruct (mapItems_Throw
              (fun i it => parseItem (Date_parse w) (clockAt w url i) src it)
              0 (take 20 (feedItems doc)) j item e) as [e' He'].
  - intros k y. apply parseItem_settles.
  - by rewrite lookup_take_lt.
  - done.
  - apply (fails_exception _ _ _ e').
    unfold tryParseFeed. rewrite Hdoc. simpl. by rewrite He'.
Qed.

(** ** Merging the endpoints *)

Lemma collect_fold {X} (g : X → list Article.t) l acc :
  fold_left (fun acc r =>
               match r with
               | Fulfilled v => acc ++ v
               | Rejected _ => acc
               end) (map (fun e => Fulfilled (g e)) l) acc
  = acc ++ concat (map g l).
Proof.
  revert acc. induction l as [|e l IH]; intros acc; simpl.
  - by rewrite app_nil_r.
  - by rewrite IH, app_assoc.
Qed.

(** The merged list follows the order of the endpoints in the registry. *)
Lemma collect_allSettled w :
  collect (allSettled w)
  = concat (map (fun e => parseFeed w (snd e) (fst e)) endpoints).
Proof. unfold collect, allSettled. by rewrite collect_fold. Qed.

Lemma elem_collect w a :
  a ∈ collect (allSettled w) ↔
  ∃ e, e ∈ endpoints ∧ a ∈ parseFeed w (snd e) (fst e).
Proof.
  rewrite collect_allSettled, list_elem_of_In, in_concat. split.
  - intros (l & Hl & Ha). apply in_map_iff in Hl as (e & <- & He).
    exists e. by rewrite !list_elem_of_In.
  - intros (e & He & Ha). exists (parseFeed w (snd e) (fst e)).
    rewrite in_map_iff. split; [exists e | ]; by rewrite <- ?list_elem_of_In.
Qed.

Lemma tagged_articles w : map snd (tagged w) = collect (allSettled w).
Proof.
  rewrite collect_allSettled. unfold tagged.
  rewrite flat_map_concat_map, concat_map, map_map. f_equal.
  apply map_ext. intros e. rewrite map_map. simpl. apply map_id.
Qed.

Lemma endpoints_registry e :
  e ∈ endpoints → fst e ∈ RSS_SOURCES ∧ snd e ∈ Source.feeds (fst e).
Proof.
  unfold endpoints. rewrite list_elem_of_In, in_flat_map.
  intros (s & Hs & He). apply in_map_iff in He as (u & <- & Hu).
  by rewrite !list_elem_of_In.
Qed.

Lemma collected_normal w a : a ∈ collect (allSettled w) → normal a.
Proof.
  intros (e & He & Ha)%elem_collect.
  apply endpoints_registry in He as [Hs _].
  apply parseFeed_elem in Ha as (doc & j & item & _ & _ & _ & Ha).
  apply parseItem_Some in Ha
    as (t & d & _ & _ & Hempty & Hrel & _ & <- & <- & Hsrc & Htopics).
  split; [done | done | done | by exists (fst e)].
Qed.

(** ** Deduplication *)

Lemma dedupFrom_elem seen l a :
  a ∈ dedupFrom seen l → a ∈ l ∧ keyOf a ∉ seen.
Proof.
  revert seen. induction l as [|x l IH]; intros seen; simpl;
    [by intros ?%elem_of_nil|].
  destruct (Js.isEmpty (Article.title x)).
  { intros [? ?]%IH. split; [by right | done]. }
  case_decide as Hseen.
  { intros [? ?]%IH. split; [by right | done]. }
  intros [->|[? Hnot]%IH]%elem_of_cons.
  - split; [by left | done].
  - split; [by right | set_solver].
Qed.

Lemma dedupFrom_NoDup seen l : NoDup (map keyOf (dedupFrom seen l)).
Proof.
  revert seen. induction l as [|x l IH]; intros seen; simpl; [constructor|].
  destruct (Js.isEmpty (Article.title x)); [done|].
  case_decide as Hseen; [done|].
  simpl. constructor; [|done].
  intros (b & Hkey & Hb)%list_elem_of_fmap.
  apply dedupFrom_elem in Hb as [_ Hnot].
  apply Hnot. unfold keyOf in Hkey. rewrite Hkey. set_solver.
Qed.


(** Every key of the list is the key of a kept article. *)
Lemma dedupFrom_covers seen l b :
  b ∈ l → Js.isEmpty (Article.title b) = false →
  keyOf b ∈ seen ∨ ∃ a, a ∈ dedupFrom seen l ∧ keyOf a = keyOf b.
Proof.
  revert seen. induction l as [|x l IH]; intros seen; simpl;
    [by intros ?%elem_of_nil|].
  intros [->|Hb]%elem_of_cons Htitle.
  - rewrite Htitle. case_decide as Hseen; [by left|].
    right. exists x. split; [by left | done].
  - destruct (Js.isEmpty (Article.title x)); [by apply IH|].
    case_decide as Hseen; [by apply IH|].
    destruct (IH ({[dedupKey (Article.title x)]} ∪ seen) Hb Htitle)
      as [Hin|(a & Ha & Hkey)].
    + apply elem_of_union in Hin as [Hin%elem_of_singleton|Hin]; [|by left].
      right. exists x. split; [by left | done].
    + right. exists a. split; [by right | done].
Qed.

(** ** Sorting *)

Lemma insertSorted_Permutation cmp a l : insertSorted cmp a l ≡ₚ a :: l.
Proof.
  induction l as [|b l IH]; simpl; [done|].
  destruct (cmp a b <=? 0)%Z; [done|].
  rewrite IH. apply Permutation_swap.
Qed.

Lemma sort_Permutation cmp l : sort cmp l ≡ₚ l.
Proof.
  induction l as [|a l IH]; simpl; [done|].
  by rewrite insertSorted_Permutation, IH.
Qed.

Lemma sort_length cmp l : length (sort cmp l) = length l.
Proof. apply Permutation_length, sort_Permutation. Qed.

Lemma elem_sort cmp l a : a ∈ sort cmp l ↔ a ∈ l.
Proof. by rewrite sort_Permutation. Qed.

Lemma insertSorted_HdRel a b l :
  newerOrSame b a → HdRel newerOrSame b l →
  HdRel newerOrSame b (insertSorted byDateDesc a l).
Proof.
  intros Hba Hhd. destruct l as [|c l]; simpl; [by constructor|].
  destruct (byDateDesc a c <=? 0)%Z; constructor; [done|].
  by inversion Hhd.
Qed.

Lemma insertSorted_Sorted a l :
  Sorted newerOrSame l → Sorted newerOrSame (insertSorted byDateDesc a l).
Proof.
  induction 1 as [|b l Hsorted IH Hhd]; simpl; [by repeat constructor|].
  destruct (byDateDesc a b <=? 0)%Z eqn:Hcmp.
  - apply Z.leb_le in Hcmp. unfold byDateDesc in Hcmp.
    repeat constructor; try done. unfold newerOrSame. lia.
  - apply Z.leb_gt in Hcmp. unfold byDateDesc in Hcmp.
    constructor; [done|].
    apply insertSorted_HdRel; [unfold newerOrSame; lia | done].
Qed.

Lemma sort_Sorted l : Sorted newerOrSame (sort byDateDesc l).
Proof.
  induction l as [|a l IH]; simpl; [constructor|].
  by apply insertSorted_Sorted.
Qed.

(** The sort is stable: the articles of one publish time keep their
    order. *)
Lemma insertSorted_same_date t a l :
  filter (fun x => Article.pubDate x = t) (insertSorted byDateDesc a l)
  = filter (fun x => Article.pubDate x = t) (a :: l).
Proof.
  induction l as [|b l IH]; simpl; [done|].
  destruct (byDateDesc a b <=? 0)%Z eqn:Hcmp; [done|].
  apply Z.leb_gt in Hcmp. unfold byDateDesc in Hcmp.
  destruct (decide (Article.pubDate b = t)) as [Hb|Hb].
  - rewrite (filter_cons_True _ b) by done. rewrite IH.
    rewrite (filter_cons_False _ a) by lia.
    rewrite (filter_cons_False _ a) by lia.
    by rewrite filter_cons_True by done.
  - rewrite (filter_cons_False _ b) by done. rewrite IH.
    destruct (decide (Article.pubDate a = t)) as [Ha|Ha].
    + rewrite !(filter_cons_True _ a) by done.
      by rewrite filter_cons_False by done.
    + rewrite !(filter_cons_False _ a) by done.
      by rewrite filter_cons_False by done.
Qed.

Lemma sort_stable t l :
  filter (fun x => Article.pubDate x = t) (sort byDateDesc l)
  = filter (fun x => Article.pubDate x = t) l.
Proof.
  induction l as [|a l IH]; simpl; [done|].
  rewrite insertSorted_same_date.
  destruct (decide (Article.pubDate a = t)).
  - rewrite !(filter_cons_True _ a) by done. by rewrite IH.
  - rewrite !(filter_cons_False _ a) by done. by rewrite IH.
Qed.

Lemma Sorted_adjacent {A} (R : A → A → Prop) (l : list A) i a b :
  Sorted R l → l !! i = Some a → l !! S i = Some b → R a b.
Proof.
  intros Hsorted. revert i. induction Hsorted as [|x l _ IH Hhd];
    intros [|i] Ha Hb; simpl in *; try discriminate.
  - injection Ha as ->. destruct Hhd as [|y l Hxy]; simpl in Hb;
      [discriminate|]. by injection Hb as <-.
  - by apply (IH i).
Qed.

(** ** Grouping *)

Lemma pushBySource_lookup l (g : gmap string (list Article.t)) k :
  fold_left pushBySource l g !! k
  = (fun l0 => l0 ++ filter (fun a => Article.source a = k) l) <$> (g !! k).
Proof.
  revert g. induction l as [|a l IH]; intros g; simpl.
  - destruct (g !! k); simpl; [by rewrite app_nil_r | done].
  - rewrite IH. unfold pushBySource.
    destruct (decide (Article.source a = k)) as [<-|Hne].
    + rewrite filter_cons_True by done.
      destruct (g !! Article.source a) as [l0|] eqn:Hg.
      * rewrite lookup_insert_eq. simpl. by rewrite <- app_assoc.
      * by rewrite Hg.
    + rewrite filter_cons_False by done.
      destruct (g !! Article.source a); [by rewrite lookup_insert_ne | done].
Qed.

Lemma emptyGroups_registry s :
  s ∈ RSS_SOURCES → emptyGroups !! Source.id s = Some [].
Proof.
  unfold RSS_SOURCES.
  intros Hs. repeat (apply elem_of_cons in Hs as [->|Hs]; [by vm_compute|]).
  by apply elem_of_nil in Hs.
Qed.

Lemma emptyGroups_lookup k l : emptyGroups !! k = Some l → l = [].
Proof.
  unfold emptyGroups. simpl. intros H.
  repeat (rewrite lookup_insert in H; case_decide; [by injection H|]).
  by rewrite lookup_empty in H.
Qed.

Lemma members_pushByTopic a g t' t x :
  members (pushByTopic a g t') t x ↔ members g t x ∨ (t = t' ∧ x = a).
Proof.
  unfold members, pushByTopic.
  destruct (g !! t') as [l'|] eqn:Hg.
  - destruct (decide (t = t')) as [->|Hne].
    + rewrite lookup_insert_eq, Hg. split.
      * intros (l & [= <-] & [Hx| ->%list_elem_of_singleton]%elem_of_app);
          [left; by exists l' | by right].
      * intros [(l & [= <-] & Hx)|[_ ->]]; eexists; split; try done;
          apply elem_of_app; [by left | right; by left].
    + rewrite lookup_insert_ne by done. split; [by left|].
      intros [?|[? _]]; done.
  - destruct (decide (t = t')) as [->|Hne].
    + rewrite lookup_insert_eq, Hg. split.
      * intros (l & [= <-] & ->%list_elem_of_singleton). by right.
      * intros [(l & ? & _)|[_ ->]]; [done|].
        exists [a]. split; [done | by left].
    + rewrite lookup_insert_ne by done. split; [by left|].
      intros [?|[? _]]; done.
Qed.

Lemma members_pushTopics a ts g t x :
  members (fold_left (pushByTopic a) ts g) t x ↔
  members g t x ∨ (t ∈ ts ∧ x = a).
Proof.
  revert g. induction ts as [|t' ts IH]; intros g; simpl.
  - split; [by left | intros [?|[?%elem_of_nil _]]; done].
  - rewrite IH, members_pushByTopic, elem_of_cons. naive_solver.
Qed.

Lemma members_groupByTopic l g t x :
  members (fold_left (fun g a => fold_left (pushByTopic a) (Article.topics a) g)
                     l g) t x ↔
  members g t x ∨ (x ∈ l ∧ t ∈ Article.topics x).
Proof.
  revert g. induction l as [|a l IH]; intros g; simpl.
  - split; [by left | intros [?|[?%elem_of_nil _]]; done].
  - rewrite IH, members_pushTopics, elem_of_cons. naive_solver.
Qed.

Lemma dom_pushByTopic a (g : gmap string (list Article.t)) t' t :
  t ∈ dom (pushByTopic a g t') ↔ t ∈ dom g ∨ t = t'.
Proof.
  unfold pushByTopic. destruct (g !! t'); rewrite dom_insert; set_solver.
Qed.

Lemma dom_groupByTopic l (g : gmap string (list Article.t)) t :
  t ∈ dom (fold_left (fun g a => fold_left (pushByTopic a) (Article.topics a) g)
                     l g) ↔
  t ∈ dom g ∨ ∃ x, x ∈ l ∧ t ∈ Article.topics x.
Proof.
  revert g. induction l as [|a l IH]; intros g; simpl.
  - split; [by left | intros [?|(x & ?%elem_of_nil & _)]; done].
  - rewrite IH.
    assert (Hts : ∀ ts g', t ∈ dom (fold_left (pushByTopic a) ts g')
                           ↔ t ∈ dom g' ∨ t ∈ ts).
    { induction ts as [|t' ts IHts]; intros g'; simpl.
      - split; [by left | intros [?|?%elem_of_nil]; done].
      - rewrite IHts, dom_pushByTopic, elem_of_cons. naive_solver. }
    rewrite Hts. split.
    + intros [[?|?]|(x & ? & ?)]; [by left | right; exists a | right; exists x];
        (split; [set_solver | done]).
    + intros [?|(x & [->|?]%elem_of_cons & ?)];
        [by left; left | by left; right | right; by exists x].
Qed.

(** ** The response *)

Lemma aggregate_articles w :
  Payload.articles (aggregate w) = take 250 (ranked w).
Proof. reflexivity. Qed.

Lemma aggregate_grouped w :
  Payload.grouped (aggregate w) = fold_left pushBySource (ranked w) emptyGroups.
Proof. reflexivity. Qed.

Lemma aggregate_topicGrouped w :
  Payload.topicGrouped (aggregate w)
  = fold_left (fun g a => fold_left (pushByTopic a) (Article.topics a) g)
              (ranked w) ∅.
Proof. reflexivity. Qed.

Lemma aggregate_total w : Payload.total (aggregate w) = length (ranked w).
Proof. reflexivity. Qed.

Lemma ranked_collected w a : a ∈ ranked w → a ∈ collect (allSettled w).
Proof.
  unfold ranked, dedup. rewrite elem_sort. by intros [? _]%dedupFrom_elem.
Qed.

Lemma ranked_normal w a : a ∈ ranked w → normal a.
Proof. intros Ha%ranked_collected. by apply collected_normal in Ha. Qed.

Lemma inGrouped_ranked w a : inGrouped (aggregate w) a ↔ a ∈ ranked w.
Proof.
  unfold inGrouped. rewrite aggregate_grouped. split.
  - intros (k & l & Hl & Ha). rewrite pushBySource_lookup in Hl.
    destruct (emptyGroups !! k) as [l0|] eqn:Hk; [|discriminate].
    apply emptyGroups_lookup in Hk as ->. injection Hl as <-.
    simpl in Ha. by apply list_elem_of_filter in Ha as [_ Ha].
  - intros Ha. destruct (ranked_normal w a Ha) as [_ _ _ (s & Hs & Hsrc)].
    exists (Article.source a). eexists. split.
    + rewrite pushBySource_lookup, Hsrc, (emptyGroups_registry s Hs).
      simpl. reflexivity.
    + rewrite <- Hsrc. by apply list_elem_of_filter.
Qed.

Lemma inTopicGrouped_ranked w a : inTopicGrouped (aggregate w) a ↔ a ∈ ranked w.
Proof.
  unfold inTopicGrouped. rewrite aggregate_topicGrouped. split.
  - intros (t & l & Hl & Ha).
    assert (Hm : members (fold_left
                (fun g a => fold_left (pushByTopic a) (Article.topics a) g)
                (ranked w) ∅) t a) by by exists l.
    apply members_groupByTopic in Hm as [(l0 & Hl0 & _)|[Hin _]]; [|done].
    by rewrite lookup_empty in Hl0.
  - intros Ha. destruct (ranked_normal w a Ha) as [_ _ Htopics _].
    pose proof (detectTopics_length (Article.title a) (Article.description a))
      as Hlen.
    rewrite <- Htopics in Hlen.
    destruct (Article.topics a) as [|t ts] eqn:Hts; simpl in Hlen; [lia|].
    assert (Hm : members (fold_left
                (fun g a => fold_left (pushByTopic a) (Article.topics a) g)
                (ranked w) ∅) t a).
    { apply members_groupByTopic. right. split; [done|]. rewrite Hts. by left. }
    destruct Hm as (l & Hl & Hin). by exists t, l.
Qed.

Lemma inResponse_ranked w a : inResponse (aggregate w) a ↔ a ∈ ranked w.
Proof.
  unfold inResponse.
  rewrite inGrouped_ranked, inTopicGrouped_ranked, aggregate_articles. split.
  - intros [Ha|[Ha|Ha]]; try done. by apply (subseteq_take 250) in Ha.
  - intros Ha. right. by left.
Qed.

(** ** Grouping consistency (C1) *)

(** C1, where the claim fails: in the sample world [crowded] the
    fourteen endpoints hand over 280 articles, none a duplicate of
    another. The one ranked 251st is listed under its source in [grouped],
    and no article of the top-level list has its identifier. *)
Lemma crowded_group_outside_articles :
  ¬ groupsWithinArticles Sample.crowded.
Proof.
  intros H.
  destruct (H (Sample.crowdedArticle 250)) as (b & Hb & Hid).
  - left. apply inGrouped_ranked.
    apply (list_elem_of_lookup_2 _ 250). by vm_compute.
  - assert (Hall : forallb (fun b => negb (String.eqb (Article.id b)
                              (Article.id (Sample.crowdedArticle 250))))
                     (Payload.articles (aggregate Sample.crowded)) = true)
      by (by vm_compute).
    rewrite forallb_forall in Hall.
    apply list_elem_of_In, Hall in Hb. rewrite Hid, String.eqb_refl in Hb.
    discriminate.
Qed.

(** C1, as the code has it: the top-level list is the first 250 of the
    sorted deduplicated articles, and each of the two group maps lists
    exactly the sorted deduplicated articles, all of them, also those
    ranked beyond 250. So whatever the group maps list is in the top-level
    list whenever the deduplicated articles are at most 250. *)
Theorem groups_list_all_ranked w :
  Payload.articles (aggregate w) = take 250 (ranked w)
  ∧ (∀ a, inGrouped (aggregate w) a ↔ a ∈ ranked w)
  ∧ (∀ a, inTopicGrouped (aggregate w) a ↔ a ∈ ranked w)
  ∧ ((Payload.total (aggregate w) ≤ 250)%nat →
     ∀ a, inGrouped (aggregate w) a ∨ inTopicGrouped (aggregate w) a →
          a ∈ Payload.articles (aggregate w)).
Proof.
  split; [done|]. split; [apply inGrouped_ranked|].
  split; [apply inTopicGrouped_ranked|].
  rewrite aggregate_total, aggregate_articles. intros Hle a Ha.
  rewrite take_ge by done.
  destruct Ha as [Ha|Ha]; [by apply inGrouped_ranked | by apply inTopicGrouped_ranked].
Qed.

(** ** Sorting (C4) *)

(** C4: of two neighbours in the top-level list, the first is published
    no earlier than the second. *)
Theorem articles_newest_first w i a b :
  Payload.articles (aggregate w) !! i = Some a →
  Payload.articles (aggregate w) !! S i = Some b →
  (Article.pubDate b ≤ Article.pubDate a)%Z.
Proof.
  rewrite aggregate_articles.
  intros [Ha _]%lookup_take_Some [Hb _]%lookup_take_Some.
  exact (Sorted_adjacent newerOrSame _ i a b (sort_Sorted _) Ha Hb).
Qed.

Lemma articles_newest_first_newsday :
  (Article.pubDate Sample.newsdayBudget ≤ Article.pubDate Sample.newsdaySeries)%Z.
Proof.
  apply (articles_newest_first Sample.newsday 0
           Sample.newsdaySeries Sample.newsdayBudget);
    vm_compute; reflexivity.
Defined.

(** ** The cap and the total (C5) *)

(** C5: the top-level list has at most 250 articles and at most [total],
    and [total] counts the deduplicated articles. *)
Theorem articles_capped w :
  (length (Payload.articles (aggregate w)) ≤ 250)%nat
  ∧ (length (Payload.articles (aggregate w)) ≤ Payload.total (aggregate w))%nat
  ∧ Payload.total (aggregate w) = length (dedup (collect (allSettled w))).
Proof.
  rewrite aggregate_articles, aggregate_total. unfold ranked.
  rewrite length_take, sort_length. repeat split; lia.
Qed.

(** ** Topic labels (C9, C10) *)

(** C9: an article of the response has one, two or three topic labels. *)
Theorem response_topics_one_to_three w a :
  inResponse (aggregate w) a →
  (1 ≤ length (Article.topics a) ≤ 3)%nat.
Proof.
  intros Ha%inResponse_ranked%ranked_normal.
  destruct Ha as [_ _ -> _]. apply detectTopics_length.
Qed.

Lemma response_topics_newsday :
  (1 ≤ length (Article.topics Sample.newsdayBill) ≤ 3)%nat.
Proof.
  apply (response_topics_one_to_three Sample.newsday).
  left. apply (list_elem_of_lookup_2 _ 2). vm_compute. reflexivity.
Defined.

Lemma General_not_a_topic_name : "General" ∉ topicNames.
Proof.
  unfold topicNames. simpl. intros H.
  repeat (apply elem_of_cons in H as [H|H]; [discriminate|]).
  by apply elem_of_nil in H.
Qed.

(** C10: [topics] is the list of the eight taxonomy names, without
    ["General"]; a key of [topicGrouped] is a taxonomy name or
    ["General"]; and in the sample world [anchored], whose one article is
    relevant by the anchor term alone, ["General"] is a key of
    [topicGrouped], which is then no subset of [topics]. *)
Theorem General_key_not_advertised :
  (∀ w, Payload.topics (aggregate w)
        = ["Polity & Governance"; "Economy"; "Environment & Ecology";
           "Science & Technology"; "International Relations";
           "Social Issues"; "Defence & Security";
           "Infrastructure & Development"]
        ∧ "General" ∉ Payload.topics (aggregate w))
  ∧ (∀ w t, t ∈ dom (Payload.topicGrouped (aggregate w)) →
            t ∈ topicNames ∨ t = "General")
  ∧ (someIncluded (itemText "india" "") ALL_KEYWORDS = false
     ∧ isRelevant "india" "" = true
     ∧ Sample.anchoredArticle ∈ Payload.articles (aggregate Sample.anchored)
     ∧ "General" ∈ dom (Payload.topicGrouped (aggregate Sample.anchored))
     ∧ ¬ (∀ t, t ∈ dom (Payload.topicGrouped (aggregate Sample.anchored)) →
               t ∈ Payload.topics (aggregate Sample.anchored))).
Proof.
  assert (Hgeneral :
            "General" ∈ dom (Payload.topicGrouped (aggregate Sample.anchored))).
  { rewrite aggregate_topicGrouped.
    apply dom_groupByTopic. right. exists Sample.anchoredArticle.
    split; [|by left]. apply (list_elem_of_lookup_2 _ 0). by vm_compute. }
  split; [|split].
  - intros w. split; [done | apply General_not_a_topic_name].
  - intros w t. rewrite aggregate_topicGrouped.
    intros [Ht|(x & Hx & Ht)]%dom_groupByTopic; [by rewrite dom_empty in Ht|].
    apply ranked_normal in Hx as [_ _ Htopics _].
    rewrite Htopics in Ht. by apply detectTopics_label in Ht.
  - split; [by vm_compute|]. split; [by vm_compute|].
    split; [apply (list_elem_of_lookup_2 _ 0); by vm_compute|].
    split; [done|].
    intros Hsub. by apply (General_not_a_topic_name), Hsub.
Qed.

(** ** Classification in taxonomy order (C7) *)

Lemma someIncluded_spec text kws :
  someIncluded text kws = true ↔ topicMatches text kws.
Proof.
  unfold someIncluded, topicMatches. rewrite existsb_exists.
  split; intros (k & Hk & Hinc); exists k; by rewrite ?list_elem_of_In in *.
Qed.

Lemma someIncluded_false text kws :
  ¬ topicMatches text kws → someIncluded text kws = false.
Proof. rewrite <- someIncluded_spec. by intros ?%not_true_is_false. Qed.

Lemma matchedTopics_filter text l :
  matchedTopics text l
  = map fst (filter (fun e => someIncluded text (snd e) = true) l).
Proof.
  induction l as [|[t kws] l IH]; simpl; [done|].
  destruct (someIncluded text kws) eqn:Hk.
  - rewrite filter_cons_True by done. simpl. by rewrite IH.
  - rewrite filter_cons_False by (simpl; congruence). done.
Qed.

Lemma matchedTopics_unmatched text l :
  (∀ e, e ∈ l → ¬ topicMatches text (snd e)) → matchedTopics text l = [].
Proof.
  intros H. apply matchedTopics_none, Forall_forall.
  intros e He. by apply someIncluded_false, H.
Qed.

(** C7: the labels are the names of the matching topics in the order of
    the taxonomy, cut after the third, or the one label ["General"] when
    no topic matches; a topic matches when the text holds one of its
    keywords. When exactly the topics [A] and [B] match, and [A] stands
    before [B] in the taxonomy, the labels are [A] and [B]. *)
Theorem detectTopics_taxonomy_order title description :
  (detectTopics title description
   = match matchingTopics (itemText title description) with
     | [] => ["General"]
     | _ :: _ => take 3 (matchingTopics (itemText title description))
     end)
  ∧ (∀ t, t ∈ matchingTopics (itemText title description) ↔
          ∃ kws, (t, kws) ∈ UPSC_TOPICS
                 ∧ topicMatches (itemText title description) kws)
  ∧ matchingTopics (itemText title description) `sublist_of` topicNames
  ∧ (∀ pre A kA mid B kB post,
       UPSC_TOPICS = pre ++ (A, kA) :: mid ++ (B, kB) :: post →
       topicMatches (itemText title description) kA →
       topicMatches (itemText title description) kB →
       (∀ e, e ∈ pre ++ mid ++ post →
             ¬ topicMatches (itemText title description) (snd e)) →
       detectTopics title description = [A; B])
  ∧ ((∀ e, e ∈ UPSC_TOPICS →
           ¬ topicMatches (itemText title description) (snd e)) →
     detectTopics title description = ["General"]).
Proof.
  set (text := itemText title description).
  split; [|split; [|split; [|split]]].
  - unfold detectTopics, matchingTopics. fold text.
    by rewrite matchedTopics_filter.
  - intros t. unfold matchingTopics. rewrite list_elem_of_fmap. split.
    + intros ([t' kws] & -> & [Hm He]%list_elem_of_filter).
      exists kws. split; [done | by apply someIncluded_spec].
    + intros (kws & He & Hm). exists (t, kws). split; [done|].
      apply list_elem_of_filter. split; [by apply someIncluded_spec | done].
  - unfold matchingTopics, topicNames.
    apply (fmap_sublist fst), sublist_filter.
  - intros pre A kA mid B kB post Hsplit HA HB Hrest.
    unfold detectTopics. fold text. rewrite Hsplit.
    rewrite matchedTopics_app. simpl. rewrite matchedTopics_app. simpl.
    apply someIncluded_spec in HA, HB. rewrite HA, HB.
    rewrite !matchedTopics_unmatched; [done | | |];
      intros e He; apply Hrest; set_solver.
  - intros Hnone. unfold detectTopics. fold text.
    by rewrite matchedTopics_unmatched.
Qed.

(** The example of the specification: a bill on GST belongs to polity
    and to the economy, in this order. *)
Lemma detectTopics_bill_on_GST :
  isRelevant "Parliament passes new bill on GST" "reform" = true
  ∧ detectTopics "Parliament passes new bill on GST" "reform"
    = ["Polity & Governance"; "Economy"].
Proof. split; by vm_compute. Qed.

(** ** Relevance (C6) *)

(** C6: an entry whose title and description, as the parser resolves
    them (markup stripped), hold no keyword of any topic and neither
    anchor term gives no article, and is dropped before its record is
    built; and every article of the response is made from an entry of
    some endpoint whose title and description are not of this kind. *)
Theorem irrelevant_entry_excluded :
  (∀ P now src item t d,
     itemTitle item = Ok t → itemDescription item = Ok d →
     noKeyword (itemText t d) →
     (∀ a, parseItem P now src item ≠ Ok (Some a))
     ∧ (∀ c, itemCategory item = Ok c → parseItem P now src item = Ok None))
  ∧ (∀ w a,
       inResponse (aggregate w) a →
       ¬ noKeyword (itemText (Article.title a) (Article.description a))
       ∧ ∃ e doc j item,
           e ∈ endpoints
           ∧ fetched w (snd e) = Responded true (BodyText (XmlParsed doc))
           ∧ feedItems doc !! j = Some item
           ∧ itemTitle item = Ok (Article.title a)
           ∧ itemDescription item = Ok (Article.description a)).
Proof.
  split.
  - intros P now src item t d Ht Hd Hno.
    apply noKeyword_not_relevant in Hno. split.
    + intros a (t' & d' & Ht' & Hd' & _ & Hrel & _)%parseItem_Some.
      congruence.
    + intros c Hc. unfold parseItem. rewrite Ht, Hd, Hc. simpl.
      by rewrite Hno, orb_true_r.
  - intros w a Ha%inResponse_ranked. split.
    + apply relevant_has_keyword. by apply ranked_normal in Ha as [].
    + apply ranked_collected, elem_collect in Ha as (e & He & Ha).
      apply parseFeed_elem in Ha as (doc & j & item & Hdoc & _ & Hj & Ha).
      apply parseItem_Some in Ha as (t & d & Ht & Hd & _ & _ & _ & <- & <- & _).
      by exists e, doc, j, item.
Qed.

(** ** Failure of one endpoint (C8) *)

Lemma mapItems_ext f g i l :
  (∀ j x, f j x = g j x) → mapItems f i l = mapItems g i l.
Proof.
  intros Hfg. revert i. induction l as [|x l IH]; intros i; simpl; [done|].
  by rewrite Hfg, IH.
Qed.

(** What becomes of the promise of an endpoint depends on its own
    answer only. *)
Lemma tryParseFeed_agree url w w' u src :
  agreeExcept url w w' → u ≠ url →
  tryParseFeed w' u src = tryParseFeed w u src.
Proof.
  intros [Hparse Hrest] Hne. destruct (Hrest u Hne) as [Hfetched Hclock].
  unfold tryParseFeed. rewrite Hfetched, Hparse.
  destruct (awaitFetch (fetched w u)) as [[ok body]|e|]; simpl; [|done..].
  destruct ok; simpl; [|done].
  destruct (awaitText body) as [xml|e|]; simpl; [|done..].
  destruct (awaitParse xml) as [doc|e|]; simpl; [|done..].
  rewrite (mapItems_ext
             (fun i item => parseItem (Date_parse w) (clockAt w' u i) src item)
             (fun i item => parseItem (Date_parse w) (clockAt w u i) src item));
    [done|].
  intros j x. by rewrite Hclock.
Qed.

Lemma parseFeed_agree url w w' u src :
  agreeExcept url w w' → u ≠ url → parseFeed w' u src = parseFeed w u src.
Proof.
  intros Hagree Hne. unfold parseFeed.
  by rewrite (tryParseFeed_agree url w w' u src Hagree Hne).
Qed.

Lemma mapItems_lookup f i l ys j x y :
  mapItems f i l = Ok ys → l !! j = Some x → f (i + j) x = Ok y →
  ys !! j = Some y.
Proof.
  revert i ys j. induction l as [|x0 l IH]; intros i ys j H Hj Hf;
    [discriminate Hj|].
  simpl in H. inv_bind H. rename x1 into y0, Hx into Hy0.
  inv_bind H. rename x1 into ys0, Hx into Hys0. injection H as <-.
  destruct j as [|j]; simpl in *.
  - injection Hj as ->. rewrite Nat.add_0_r in Hf. congruence.
  - apply (IH (S i) ys0 j Hys0 Hj). by rewrite Nat.add_succ_r in Hf.
Qed.

(** An endpoint whose promise is fulfilled with the list of its [try]
    block hands over the article of every entry among the first twenty
    that gives one. *)
Lemma parseFeed_complete w url src doc l j item b :
  fetched w url = Responded true (BodyText (XmlParsed doc)) →
  tryParseFeed w url src = Ok l →
  feedItems doc !! j = Some item → (j < 20)%nat →
  parseItem (Date_parse w) (clockAt w url j) src item = Ok (Some b) →
  b ∈ parseFeed w url src.
Proof.
  intros Hdoc Hl Hj Hlt Hb. unfold parseFeed. rewrite Hl.
  unfold tryParseFeed in Hl. rewrite Hdoc in Hl. simpl in Hl.
  inv_bind Hl. injection Hl as <-. apply elem_filterBoolean.
  apply (list_elem_of_lookup_2 _ j).
  apply (mapItems_lookup _ 0 _ _ j item (Some b) Hx); [|done].
  by rewrite lookup_take_lt.
Qed.

Lemma everySettles_spec w :
  everySettles w = true ↔
  ∀ e, e ∈ endpoints → settles w (snd e) (fst e) = true.
Proof.
  unfold everySettles. rewrite forallb_forall.
  split; intros H e He; apply H; by apply list_elem_of_In.
Qed.

(** An endpoint that fails and settles (the network, the abort before
    the headers, a status that is not 2xx, a body or a document that is
    rejected, an exception in an entry) is kept apart: it hands over the
    empty list; when all the promises settle, the handler answers 200 with
    the aggregate; every article of the response comes from another
    endpoint; every article that a fulfilled endpoint makes of one of its
    first twenty entries is in the response or has its key there; and
    what becomes of the other promises is what would become of them
    whatever this endpoint did. *)
Lemma settled_failure_isolated w src url :
  (src, url) ∈ endpoints → EndpointFails w url src →
  parseFeed w url src = [] ∧ settles w url src = true
  ∧ (everySettles w = true →
     ∀ method, method ≠ "OPTIONS" →
       handler w method
       = Some {| statusCode := 200; headers := corsHeaders;
                 body := JsonPayload (aggregate w) |})
  ∧ (∀ a, inResponse (aggregate w) a →
          ∃ e, e ∈ endpoints ∧ e ≠ (src, url)
               ∧ a ∈ parseFeed w (snd e) (fst e))
  ∧ (∀ e doc l j item b,
       e ∈ endpoints →
       fetched w (snd e) = Responded true (BodyText (XmlParsed doc)) →
       tryParseFeed w (snd e) (fst e) = Ok l →
       feedItems doc !! j = Some item → (j < 20)%nat →
       parseItem (Date_parse w) (clockAt w (snd e) j) (fst e) item
       = Ok (Some b) →
       ∃ a, inResponse (aggregate w) a ∧ keyOf a = keyOf b)
  ∧ (∀ w' e, agreeExcept url w w' → e ∈ endpoints → snd e ≠ url →
             tryParseFeed w' (snd e) (fst e) = tryParseFeed w (snd e) (fst e)).
Proof.
  intros _ Hfails. pose proof (parseFeed_fails _ _ _ Hfails) as Hnil.
  split; [done|]. split; [|split; [|split; [|split]]].
  - unfold settles. destruct Hfails as [H|H|body H|H|H|e H];
      [unfold tryParseFeed; rewrite H ..|by rewrite H]; done.
  - intros Hall method Hne%String.eqb_neq. unfold handler.
    by rewrite Hne, Hall.
  - intros a Ha%inResponse_ranked%ranked_collected%elem_collect.
    destruct Ha as (e & He & Ha). exists e. split; [done|]. split; [|done].
    intros ->. simpl in Ha. rewrite Hnil in Ha. by apply elem_of_nil in Ha.
  - intros e doc l j item b He Hdoc Hl Hj Hlt Hb.
    assert (Hcollected : b ∈ collect (allSettled w)).
    { apply elem_collect. exists e. split; [done|].
      by apply (parseFeed_complete w (snd e) (fst e) doc l j item b). }
    destruct (dedupFrom_covers ∅ _ b Hcollected) as [Hin|(a & Ha & Hkey)].
    + by apply collected_normal in Hcollected as [].
    + by apply not_elem_of_empty in Hin.
    + exists a. split; [|done]. apply inResponse_ranked.
      unfold ranked. by rewrite elem_sort.
  - intros w' e Hagree _ Hne. by apply (tryParseFeed_agree url).
Qed.

(** The same feeds as in [stalled], with the abort before the headers in
    place of the body that never ends: the handler answers 200. *)
Lemma abort_before_headers_answers :
  handler Sample.aborted "GET"
  = Some {| statusCode := 200; headers := corsHeaders;
            body := JsonPayload (aggregate Sample.aborted) |}
  ∧ length (Payload.articles (aggregate Sample.aborted)) = 13%nat.
Proof.
  destruct (settled_failure_isolated Sample.aborted Sample.et Sample.etEconomy)
    as (_ & _ & Hstatus & _).
  - apply (list_elem_of_lookup_2 _ 10). vm_compute. reflexivity.
  - apply fails_timeout. vm_compute. reflexivity.
  - split; [|by vm_compute]. apply Hstatus; [by vm_compute | discriminate].
Qed.

(** C8, where the code fails the claim: the timer that aborts a fetch is
    cleared as soon as the headers are in, before the body is read. An
    endpoint that answers with an ok status and a body that never ends
    throws nothing and is not aborted: its promise never settles,
    [Promise.allSettled] never ends, and the handler never answers,
    whatever the other endpoints do. *)
Theorem stalled_body_hangs_handler w e method :
  e ∈ endpoints →
  fetched w (snd e) = Responded true BodyNeverEnds →
  method ≠ "OPTIONS" →
  tryParseFeed w (snd e) (fst e) = Pending
  ∧ settles w (snd e) (fst e) = false
  ∧ handler w method = None.
Proof.
  intros He Hbody Hne%String.eqb_neq.
  assert (Hpending : tryParseFeed w (snd e) (fst e) = Pending)
    by (unfold tryParseFeed; by rewrite Hbody).
  assert (Hsettles : settles w (snd e) (fst e) = false)
    by (unfold settles; by rewrite Hpending).
  split; [done|]. split; [done|].
  unfold handler. rewrite Hne.
  destruct (everySettles w) eqn:Hall; [|done].
  rewrite everySettles_spec in Hall. specialize (Hall e He). congruence.
Qed.

Lemma stalled_body_hangs_sample :
  tryParseFeed Sample.stalled Sample.etEconomy Sample.et = Pending
  ∧ settles Sample.stalled Sample.etEconomy Sample.et = false
  ∧ handler Sample.stalled "GET" = None.
Proof.
  apply (stalled_body_hangs_handler Sample.stalled
           (Sample.et, Sample.etEconomy) "GET").
  - apply (list_elem_of_lookup_2 _ 10). vm_compute. reflexivity.
  - vm_compute. reflexivity.
  - discriminate.
Defined.

(** ** Deduplication (C3) *)





(** ** The publish time (C2) *)

(** The date of an entry touches nothing but [pubDate]: with its three
    date fields taken away an entry is published at the clock, and with
    them it is the same article at its own date, if that is a date. *)
Lemma parseItem_dated P now src item a :
  parseItem P now src (undated item) = Ok (Some a) →
  Article.pubDate a = now
  ∧ parseItem P now src item
    = (let* iso := toISOString (itemDate P now item) in
       Ok (Some (datedAt iso a))).
Proof.
  unfold parseItem.
  change (itemTitle (undated item)) with (itemTitle item).
  change (itemDescription (undated item)) with (itemDescription item).
  change (itemCategory (undated item)) with (itemCategory item).
  change (itemLink (undated item)) with (itemLink item).
  change (itemImageUrl (undated item)) with (itemImageUrl item).
  change (itemDate P now (undated item)) with (Some now).
  destruct (itemTitle item) as [t|e|]; cbn [bind]; [|discriminate..].
  destruct (itemDescription item) as [d|e|]; cbn [bind]; [|discriminate..].
  destruct (itemCategory item) as [c|e|]; cbn [bind]; [|discriminate..].
  destruct (Js.isEmpty t || negb (isRelevant t d)); [discriminate|].
  destruct (asString (itemLink item <||> JString t)) as [idText|e|];
    cbn [bind]; [|discriminate..].
  destruct (asString (itemLink item)) as [linkText|e|]; cbn [bind];
    [|discriminate..].
  destruct (asString (itemImageUrl item)) as [image|e|];
    cbn [bind toISOString]; [|discriminate..].
  intros [= <-]. split; [done|].
  by destruct (toISOString (itemDate P now item)).
Qed.

(** Without a publish-time field the article is dated by the clock. *)
Lemma absent_date_defaults_to_now P now src item a :
  truthy (itemPubDateRaw item) = false →
  parseItem P now src item = Ok (Some a) →
  Article.pubDate a = now.
Proof.
  intros Hfalsy (t & d & _ & _ & _ & _ & Hdate & _)%parseItem_Some.
  unfold itemDate in Hdate. rewrite Hfalsy in Hdate. congruence.
Qed.

(** C2, where the code fails the claim: an entry among the first twenty
    that would be an article without its date, and whose date is no date,
    is not dated by the clock: [toISOString] throws, and the [catch] of
    [parseFeed] drops every entry of the endpoint. *)
Theorem unparseable_date_empties_endpoint w url src doc j item a :
  fetched w url = Responded true (BodyText (XmlParsed doc)) →
  feedItems doc !! j = Some item → (j < 20)%nat →
  parseItem (Date_parse w) (clockAt w url j) src (undated item) = Ok (Some a) →
  truthy (itemPubDateRaw item) = true →
  newDate (Date_parse w) (itemPubDateRaw item) = None →
  parseItem (Date_parse w) (clockAt w url j) src item = Throw RangeError
  ∧ parseFeed w url src = [].
Proof.
  intros Hdoc Hj Hlt Hundated Htruthy Hinvalid.
  assert (Hthrow : parseItem (Date_parse w) (clockAt w url j) src item
                   = Throw RangeError).
  { apply parseItem_dated in Hundated as [_ ->].
    unfold itemDate. by rewrite Htruthy, Hinvalid. }
  split; [done|]. by apply (parseFeed_item_throws w url src doc j item RangeError).
Qed.

Lemma unparseable_date_misdated :
  parseItem Sample.dateParse 1704196800000%Z Sample.hindu Sample.misdatedEntry
  = Throw RangeError
  ∧ parseFeed Sample.misdated Sample.hinduNational Sample.hindu = [].
Proof.
  apply (unparseable_date_empties_endpoint Sample.misdated Sample.hinduNational
           Sample.hindu Sample.misdatedDoc 1 Sample.misdatedEntry
           Sample.redatedBill);
    vm_compute; solve [reflexivity | lia].
Defined.

(** The same feed, once the date is taken away from that entry, yields
    its two articles. *)
Lemma redated_feed_yields_both :
  parseFeed Sample.redated Sample.hinduNational Sample.hindu
  = [Sample.newsdaySeries; Sample.redatedBill].
Proof. by vm_compute. Qed.

(** * Further properties of the code *)

(** ** The fields of an article *)

(** Everything [parseItem] puts into an article. *)
Lemma parseItem_fields P now src item a :
  parseItem P now src item = Ok (Some a) →
  ∃ t d c l img tm,
    itemTitle item = Ok t ∧ itemDescription item = Ok d
    ∧ itemCategory item = Ok c ∧ itemLink item = JString l
    ∧ itemImageUrl item = JString img ∧ itemDate P now item = Some tm
    ∧ a = {| Article.id := makeId (if Js.isEmpty l then t else l);
             Article.title := t;
             Article.description := d;
             Article.link := l;
             Article.pubDate := tm;
             Article.source := Source.id src;
             Article.sourceName := Source.name src;
             Article.sourceFullName := Source.fullName src;
             Article.sourceColor := Source.color src;
             Article.category := if Js.isEmpty c then "General" else c;
             Article.topics := detectTopics t d;
             Article.imageUrl := img |}.
Proof.
  unfold parseItem. intros H.
  inv_bind H. rename x into t, Hx into Ht.
  inv_bind H. rename x into d, Hx into Hd.
  inv_bind H. rename x into c, Hx into Hc.
  destruct (Js.isEmpty t || negb (isRelevant t d)); [discriminate|].
  inv_bind H. rename x into idText, Hx into Hid.
  inv_bind H. rename x into l, Hx into Hl.
  inv_bind H. rename x into tm, Hx into Htm.
  inv_bind H. rename x into img, Hx into Himg.
  injection H as <-.
  destruct (itemLink item) as [|l'|]; simpl in Hl; try discriminate.
  injection Hl as ->.
  destruct (itemImageUrl item) as [|img'|]; simpl in Himg; try discriminate.
  injection Himg as ->.
  destruct (itemDate P now item) as [tm'|]; simpl in Htm; [|discriminate].
  injection Htm as ->.
  exists t, d, c, l, img, tm. repeat (split; [done|]).
  f_equal. unfold orElse, truthy in Hid.
  destruct (Js.isEmpty l); simpl in Hid; by injection Hid as <-.
Qed.

(** Where an article of the response comes from. *)
Lemma response_origin w a :
  inResponse (aggregate w) a →
  ∃ e j item,
    e ∈ endpoints
    ∧ parseItem (Date_parse w) (clockAt w (snd e) j) (fst e) item = Ok (Some a).
Proof.
  intros Ha%inResponse_ranked%ranked_collected%elem_collect.
  destruct Ha as (e & He & Ha).
  apply parseFeed_elem in Ha as (doc & j & item & _ & _ & _ & Ha).
  by exists e, j, item.
Qed.

Lemma Ok_inj {A} (a b : A) : Ok a = Ok b → a = b.
Proof. congruence. Qed.

Lemma slice0_length n s : (String.length (Js.slice0 n s) ≤ n)%nat.
Proof.
  revert s. induction n as [|n IH]; intros [|c s]; simpl; try lia.
  specialize (IH s). lia.
Qed.

Lemma allChars_keepChars class s : allChars class (Js.keepChars class s).
Proof.
  unfold allChars. induction s as [|c s IH]; simpl; [constructor|].
  destruct (class c) eqn:Hc; simpl; [by constructor | done].
Qed.

Lemma allChars_slice0 class n s :
  allChars class s → allChars class (Js.slice0 n s).
Proof.
  unfold allChars. revert s. induction n as [|n IH]; intros [|c s] H; simpl;
    try constructor.
  - by inversion H.
  - apply IH. by inversion H.
Qed.

Lemma trimStart_head s :
  match Js.trimStart s with
  | EmptyString => True
  | String c _ => Js.isSpace c = false
  end.
Proof.
  induction s as [|c s IH]; simpl; [done|].
  destruct (Js.isSpace c) eqn:Hc; [done | by simpl].
Qed.

Lemma trimEnd_idem s : Js.trimEnd (Js.trimEnd s) = Js.trimEnd s.
Proof.
  induction s as [|c s IH]; simpl; [done|].
  destruct (Js.isSpace c && Js.isEmpty (Js.trimEnd s)) eqn:Hcond; [done|].
  simpl. by rewrite IH, Hcond.
Qed.

Lemma trim_trimmed s : trimmed (Js.trim s).
Proof.
  unfold trimmed, Js.trim.
  pose proof (trimStart_head s) as Hhead.
  destruct (Js.trimStart s) as [|c r]; [done|].
  simpl. rewrite Hhead. simpl. rewrite Hhead.
  change (Js.trimEnd (String c (Js.trimEnd r)) = String c (Js.trimEnd r)).
  simpl. by rewrite trimEnd_idem, Hhead.
Qed.

(** X1: an article of the response has a description of at most 500
    characters and an identifier of at most 24, all of them ASCII letters
    or digits; its title is not empty and has no white space at its ends;
    and its category is not empty and has none either. *)
Theorem response_article_fields w a :
  inResponse (aggregate w) a →
  (String.length (Article.description a) ≤ 500)%nat
  ∧ (String.length (Article.id a) ≤ 24)%nat
  ∧ allChars Js.isAlnum (Article.id a)
  ∧ Article.title a ≠ "" ∧ trimmed (Article.title a)
  ∧ Article.category a ≠ "" ∧ trimmed (Article.category a).
Proof.
  intros (e & j & item & _ & Ha)%response_origin.
  pose proof Ha as Hrel. apply parseItem_Some in Hrel
    as (t0 & d0 & Ht0 & _ & Hempty & _ & _ & Htitle & _).
  apply parseItem_fields in Ha
    as (t & d & c & l & img & tm & Ht & Hd & Hc & _ & _ & _ & ->).
  cbn [Article.id Article.title Article.description Article.category] in *.
  subst t0. clear Ht0.
  unfold itemTitle in Ht. inv_bind Ht. apply Ok_inj in Ht as <-.
  unfold itemDescription in Hd. inv_bind Hd. apply Ok_inj in Hd as <-.
  unfold itemCategory in Hc. inv_bind Hc. apply Ok_inj in Hc as <-.
  split; [|split; [|split; [|split; [|split; [|split]]]]].
  - apply slice0_length.
  - apply slice0_length.
  - apply allChars_slice0, allChars_keepChars.
  - intros Heq. rewrite Heq in Hempty. discriminate.
  - apply trim_trimmed.
  - by destruct (Js.isEmpty (Js.trim (Js.stripTags x1))) eqn:Hc;
      [|intros Heq; rewrite Heq in Hc].
  - destruct (Js.isEmpty (Js.trim (Js.stripTags x1))); [done|].
    apply trim_trimmed.
Qed.

Lemma response_article_fields_newsday :
  (String.length (Article.description Sample.newsdayBill) ≤ 500)%nat
  ∧ (String.length (Article.id Sample.newsdayBill) ≤ 24)%nat
  ∧ allChars Js.isAlnum (Article.id Sample.newsdayBill)
  ∧ Article.title Sample.newsdayBill ≠ ""
  ∧ trimmed (Article.title Sample.newsdayBill)
  ∧ Article.category Sample.newsdayBill ≠ ""
  ∧ trimmed (Article.category Sample.newsdayBill).
Proof.
  apply (response_article_fields Sample.newsday).
  left. apply (list_elem_of_lookup_2 _ 2). vm_compute. reflexivity.
Defined.

(** ** Markup *)

Lemma hasGt_spec s :
  Js.hasGt s = true ↔ ∃ mid post, s = String.append mid (String ">" post).
Proof.
  induction s as [|c s IH]; simpl.
  - split; [done | intros ([|? ?] & post & H); discriminate].
  - rewrite orb_true_iff, IH. unfold Js.isGt. split.
    + intros [->%Ascii.eqb_eq|(mid & post & ->)].
      * by exists EmptyString, s.
      * by exists (String c mid), post.
    + intros ([|c' mid] & post & H); simpl in H; injection H as -> ->.
      * left. apply Ascii.eqb_refl.
      * right. by exists mid, post.
Qed.

(** [hasTag] finds a ["<"] that a [">"] follows. *)
Lemma hasTag_spec s :
  hasTag s = true ↔
  ∃ pre mid post,
    s = String.append pre (String "<" (String.append mid (String ">" post))).
Proof.
  induction s as [|c s IH]; simpl.
  - split; [done | intros ([|? ?] & mid & post & H); discriminate].
  - rewrite orb_true_iff, andb_true_iff, IH, hasGt_spec. unfold Js.isLt. split.
    + intros [[->%Ascii.eqb_eq (mid & post & ->)]|(pre & mid & post & ->)].
      * by exists EmptyString, mid, post.
      * by exists (String c pre), mid, post.
    + intros ([|c' pre] & mid & post & H); simpl in H; injection H as -> ->.
      * left. split; [apply Ascii.eqb_refl | by exists mid, post].
      * right. by exists pre, mid, post.
Qed.

Lemma isSpace_not_angle c :
  Js.isSpace c = true → Js.isGt c = false ∧ Js.isLt c = false.
Proof.
  destruct c as [[] [] [] [] [] [] [] []]; vm_compute; intros H;
    solve [discriminate H | done].
Qed.

Lemma hasGt_stripFrom b s :
  Js.hasGt (Js.stripFrom b s) = true → Js.hasGt s = true.
Proof.
  revert b. induction s as [|c s IH]; intros b; simpl; [by destruct b|].
  destruct b.
  - destruct (Js.isGt c); simpl; [done|]. apply IH.
  - destruct (Js.isLt c && Js.hasGt s) eqn:Hcond.
    + intros H%IH. by rewrite H, orb_true_r.
    + simpl. intros [->|H%IH]%orb_true_iff; [done|]. by rewrite H, orb_true_r.
Qed.

(** What [stripTags] leaves holds no tag. *)
Lemma hasTag_stripFrom b s : hasTag (Js.stripFrom b s) = false.
Proof.
  revert b. induction s as [|c s IH]; intros b; simpl; [by destruct b|].
  destruct b.
  - by destruct (Js.isGt c).
  - destruct (Js.isLt c && Js.hasGt s) eqn:Hcond; [done|].
    simpl. rewrite IH, orb_false_r.
    destruct (Js.isLt c); [|done]. simpl in *.
    apply not_true_is_false. intros H%hasGt_stripFrom. congruence.
Qed.

Lemma hasGt_trimStart s : Js.hasGt (Js.trimStart s) = true → Js.hasGt s = true.
Proof.
  induction s as [|c s IH]; simpl; [done|].
  destruct (Js.isSpace c); [|done]. intros H%IH. by rewrite H, orb_true_r.
Qed.

Lemma hasTag_trimStart s : hasTag (Js.trimStart s) = true → hasTag s = true.
Proof.
  induction s as [|c s IH]; simpl; [done|].
  destruct (Js.isSpace c); [|done]. intros H%IH. by rewrite H, orb_true_r.
Qed.

Lemma hasGt_trimEnd s : Js.hasGt (Js.trimEnd s) = true → Js.hasGt s = true.
Proof.
  induction s as [|c s IH]; simpl; [done|].
  destruct (Js.isSpace c && Js.isEmpty (Js.trimEnd s)); simpl; [done|].
  intros [->|H%IH]%orb_true_iff; [done|]. by rewrite H, orb_true_r.
Qed.

Lemma hasTag_trimEnd s : hasTag (Js.trimEnd s) = true → hasTag s = true.
Proof.
  induction s as [|c s IH]; simpl; [done|].
  destruct (Js.isSpace c && Js.isEmpty (Js.trimEnd s)); simpl; [done|].
  intros [[-> H%hasGt_trimEnd]%andb_true_iff|H%IH]%orb_true_iff.
  - by rewrite H.
  - by rewrite H, orb_true_r.
Qed.

Lemma hasGt_collapseFrom b s :
  Js.hasGt (Js.collapseFrom b s) = Js.hasGt s.
Proof.
  revert b. induction s as [|c s IH]; intros b; simpl; [done|].
  destruct (Js.isSpace c) eqn:Hc.
  - apply isSpace_not_angle in Hc as [-> _]. destruct b; simpl; by rewrite IH.
  - simpl. by rewrite IH.
Qed.

Lemma hasTag_collapseFrom b s : hasTag (Js.collapseFrom b s) = hasTag s.
Proof.
  revert b. induction s as [|c s IH]; intros b; simpl; [done|].
  destruct (Js.isSpace c) eqn:Hc.
  - apply isSpace_not_angle in Hc as [_ ->]. destruct b; simpl; by rewrite IH.
  - simpl. by rewrite IH, hasGt_collapseFrom.
Qed.

Lemma hasGt_slice0 n s : Js.hasGt (Js.slice0 n s) = true → Js.hasGt s = true.
Proof.
  revert s. induction n as [|n IH]; intros [|c s]; simpl; try done.
  intros [->|H%IH]%orb_true_iff; [done|]. by rewrite H, orb_true_r.
Qed.

Lemma hasTag_slice0 n s : hasTag (Js.slice0 n s) = true → hasTag s = true.
Proof.
  revert s. induction n as [|n IH]; intros [|c s]; simpl; try done.
  intros [[-> H%hasGt_slice0]%andb_true_iff|H%IH]%orb_true_iff.
  - by rewrite H.
  - by rewrite H, orb_true_r.
Qed.

Lemma hasTag_trim_stripTags s : hasTag (Js.trim (Js.stripTags s)) = false.
Proof.
  apply not_true_is_false. unfold Js.trim, Js.stripTags.
  intros H%hasTag_trimEnd%hasTag_trimStart.
  by rewrite hasTag_stripFrom in H.
Qed.

(** X2: the title, the description and the category of an article of
    the response hold no markup tag, that is no ["<"] with a [">"]
    somewhere after it. *)
Theorem response_article_without_markup w a :
  inResponse (aggregate w) a →
  hasTag (Article.title a) = false
  ∧ hasTag (Article.description a) = false
  ∧ hasTag (Article.category a) = false.
Proof.
  intros (e & j & item & _ & Ha)%response_origin.
  apply parseItem_fields in Ha
    as (t & d & c & l & img & tm & Ht & Hd & Hc & _ & _ & _ & ->).
  cbn [Article.title Article.description Article.category].
  unfold itemTitle in Ht. inv_bind Ht. apply Ok_inj in Ht as <-.
  unfold itemDescription in Hd. inv_bind Hd. apply Ok_inj in Hd as <-.
  unfold itemCategory in Hc. inv_bind Hc. apply Ok_inj in Hc as <-.
  split; [|split].
  - apply hasTag_trim_stripTags.
  - apply not_true_is_false. unfold Js.trim, Js.collapseSpaces, Js.stripTags.
    intros H%hasTag_slice0%hasTag_trimEnd%hasTag_trimStart.
    by rewrite hasTag_collapseFrom, hasTag_stripFrom in H.
  - destruct (Js.isEmpty (Js.trim (Js.stripTags x1))); [done|].
    apply hasTag_trim_stripTags.
Qed.

Lemma response_article_without_markup_newsday :
  hasTag (Article.title Sample.newsdaySeries) = false
  ∧ hasTag (Article.description Sample.newsdaySeries) = false
  ∧ hasTag (Article.category Sample.newsdaySeries) = false.
Proof.
  apply (response_article_without_markup Sample.newsday).
  left. apply (list_elem_of_lookup_2 _ 0). vm_compute. reflexivity.
Defined.

(** ** The identifier *)

Lemma slice0_app p n s :
  Js.slice0 (String.length p + n) (String.append p s)
  = String.append p (Js.slice0 n s).
Proof.
  induction p as [|c p IH]; simpl; [done | by rewrite IH].
Qed.

Lemma slice0_app_exact x y : Js.slice0 (String.length x) (String.append x y) = x.
Proof. induction x as [|c x IH]; simpl; [by destruct y | by rewrite IH]. Qed.

Lemma utf8_app p s : Js.utf8 (String.append p s) = Js.utf8 p ++ Js.utf8 s.
Proof.
  induction p as [|c p IH]; simpl; [done|]. by rewrite IH, app_assoc.
Qed.

Lemma utf8_ascii_length p :
  allChars isAscii p → length (Js.utf8 p) = String.length p.
Proof.
  unfold allChars. induction p as [|c p IH]; simpl; [done|].
  intros H. inversion H as [|? ? Hc Hp]; subst.
  unfold Js.utf8Char. unfold isAscii in Hc. rewrite Hc. simpl.
  by rewrite IH.
Qed.

(** Base64 works on groups of three bytes: a whole number of groups in
    front is encoded on its own. *)
Lemma base64_app k l m :
  length l = (3 * k)%nat →
  Js.base64 (l ++ m) = String.append (Js.base64 l) (Js.base64 m)
  ∧ String.length (Js.base64 l) = (4 * k)%nat.
Proof.
  revert l. induction k as [|k IH]; intros l Hlen.
  - destruct l; [done | simpl in Hlen; lia].
  - destruct l as [|a [|b [|c l]]]; simpl in Hlen; try lia.
    destruct (IH l) as [Happ Hlength]; [lia|].
    change (Js.base64 ((a :: b :: c :: l) ++ m))
      with (String (Js.base64Digit (N.shiftr a 2))
        (String (Js.base64Digit (N.lor (N.shiftl (N.land a 3) 4) (N.shiftr b 4)))
           (String (Js.base64Digit (N.lor (N.shiftl (N.land b 15) 2) (N.shiftr c 6)))
              (String (Js.base64Digit (N.land c 63)) (Js.base64 (l ++ m)))))).
    rewrite Happ. split; [done|].
    change (Js.base64 (a :: b :: c :: l))
      with (String (Js.base64Digit (N.shiftr a 2))
        (String (Js.base64Digit (N.lor (N.shiftl (N.land a 3) 4) (N.shiftr b 4)))
           (String (Js.base64Digit (N.lor (N.shiftl (N.land b 15) 2) (N.shiftr c 6)))
              (String (Js.base64Digit (N.land c 63)) (Js.base64 l))))).
    simpl String.length. lia.
Qed.

Lemma keepChars_app class x y :
  Js.keepChars class (String.append x y)
  = String.append (Js.keepChars class x) (Js.keepChars class y).
Proof.
  induction x as [|c x IH]; simpl; [done|].
  destruct (class c); simpl; by rewrite IH.
Qed.

Lemma keepChars_all class x : allChars class x → Js.keepChars class x = x.
Proof.
  unfold allChars. induction x as [|c x IH]; simpl; [done|].
  intros H. inversion H as [|? ? Hc Hx]; subst. by rewrite Hc, IH.
Qed.

(** The identifier made from a text that starts with 18 ASCII characters
    whose base64 digits are all letters or digits is these 24 digits:
    nothing after the 18th character counts. *)
Lemma makeId_prefix p s :
  String.length p = 18%nat → allChars isAscii p →
  allChars Js.isAlnum (Js.base64 (Js.utf8 p)) →
  makeId (String.append p s) = Js.base64 (Js.utf8 p).
Proof.
  intros Hlen Hascii Halnum. unfold makeId.
  replace (Js.slice0 80 (String.append p s))
    with (Js.slice0 (String.length p + 62) (String.append p s))
    by (by rewrite Hlen).
  rewrite slice0_app, utf8_app.
  destruct (base64_app 6 (Js.utf8 p) (Js.utf8 (Js.slice0 62 s)))
    as [-> Hlength]; [by rewrite utf8_ascii_length|].
  rewrite keepChars_app, (keepChars_all _ _ Halnum).
  replace 24%nat with (String.length (Js.base64 (Js.utf8 p)))
    by (by rewrite Hlength).
  apply slice0_app_exact.
Qed.

(** X3: two entries whose links are plain text and start with the same
    18 ASCII characters, the base64 digits of which are all letters or
    digits, give articles with the same identifier, whatever the rest of
    the links and whatever the titles: the identifier is the base64 of
    these 18 characters. *)
Theorem shared_link_prefix_same_id P now now' src src' item item' a a' p s s' :
  String.length p = 18%nat → allChars isAscii p →
  allChars Js.isAlnum (Js.base64 (Js.utf8 p)) →
  itemLink item = JString (String.append p s) →
  itemLink item' = JString (String.append p s') →
  parseItem P now src item = Ok (Some a) →
  parseItem P now' src' item' = Ok (Some a') →
  Article.id a = Js.base64 (Js.utf8 p) ∧ Article.id a' = Article.id a.
Proof.
  intros Hlen Hascii Halnum Hl Hl' Ha Ha'.
  assert (Hid : ∀ now src item a s,
            itemLink item = JString (String.append p s) →
            parseItem P now src item = Ok (Some a) →
            Article.id a = Js.base64 (Js.utf8 p)).
  { clear Hl Hl' Ha Ha'. intros now0 src0 item0 a0 s0 Hl Ha.
    apply parseItem_fields in Ha
      as (t & d & c & l & img & tm & _ & _ & _ & Hlink & _ & _ & ->).
    cbn [Article.id]. rewrite Hl in Hlink. apply (f_equal (fun v =>
      match v with JString x => x | _ => EmptyString end)) in Hlink.
    subst l. destruct p as [|c0 p0]; [discriminate Hlen|].
    cbn [Js.isEmpty String.append].
    by apply (makeId_prefix (String c0 p0)). }
  rewrite (Hid _ _ _ _ _ Hl Ha), (Hid _ _ _ _ _ Hl' Ha'). done.
Qed.

Lemma shared_link_prefix_hindu :
  Article.id (More.linkedArticle "India monsoon" More.monsoonLink)
  = Js.base64 (Js.utf8 "https://www.thehin")
  ∧ Article.id (More.linkedArticle "India cricket" More.cricketLink)
    = Article.id (More.linkedArticle "India monsoon" More.monsoonLink).
Proof.
  apply (shared_link_prefix_same_id Sample.dateParse
           1704196800000%Z 1704196800000%Z Sample.hindu Sample.hindu
           (More.linked "India monsoon" More.monsoonLink)
           (More.linked "India cricket" More.cricketLink)
           _ _ "https://www.thehin"
           "du.com/news/national/monsoon/article1.ece"
           "du.com/sport/cricket/article2.ece");
    try (vm_compute; reflexivity);
    unfold allChars; vm_compute; repeat constructor.
Defined.

(** ** The caps *)

Lemma mapItems_length f i l ys : mapItems f i l = Ok ys → length ys = length l.
Proof.
  revert i ys. induction l as [|x l IH]; intros i ys H; simpl in H.
  - by apply Ok_inj in H as <-.
  - inv_bind H. inv_bind H. apply Ok_inj in H as <-. simpl.
    by rewrite (IH _ _ Hx0).
Qed.

Lemma filterBoolean_length l : (length (filterBoolean l) ≤ length l)%nat.
Proof. induction l as [|[a|] l IH]; simpl; lia. Qed.

Lemma parseFeed_length w url src : (length (parseFeed w url src) ≤ 20)%nat.
Proof.
  unfold parseFeed. destruct (tryParseFeed w url src) as [l|e|] eqn:H;
    [|simpl; lia..].
  unfold tryParseFeed in H. inv_bind H.
  destruct (negb (fst x)); [apply Ok_inj in H as <-; simpl; lia|].
  inv_bind H. inv_bind H. inv_bind H. apply Ok_inj in H as <-.
  pose proof (filterBoolean_length x2) as Hle.
  apply mapItems_length in Hx2. rewrite length_take in Hx2. lia.
Qed.

Lemma concat_length_bound {X} (g : X → list Article.t) n l :
  (∀ e, length (g e) ≤ n)%nat →
  (length (concat (map g l)) ≤ n * length l)%nat.
Proof.
  intros Hg. induction l as [|e l IH]; simpl; [lia|].
  rewrite length_app. specialize (Hg e). lia.
Qed.

Lemma dedupFrom_length seen l : (length (dedupFrom seen l) ≤ length l)%nat.
Proof.
  revert seen. induction l as [|a l IH]; intros seen; simpl; [lia|].
  destruct (Js.isEmpty (Article.title a)); [specialize (IH seen); lia|].
  case_decide; [specialize (IH seen); lia|].
  simpl. specialize (IH ({[dedupKey (Article.title a)]} ∪ seen)). lia.
Qed.

(** X4: an endpoint yields at most 20 articles, so that a response
    counts at most 280 deduplicated articles and the cut at 250 leaves
    out at most 30 of them. *)
Theorem at_most_280_articles w :
  (∀ url src, length (parseFeed w url src) ≤ 20)%nat
  ∧ (Payload.total (aggregate w) ≤ 280)%nat
  ∧ (Payload.total (aggregate w) - length (Payload.articles (aggregate w))
     ≤ 30)%nat.
Proof.
  split; [intros; apply parseFeed_length|].
  assert (Htotal : (Payload.total (aggregate w) ≤ 280)%nat).
  { rewrite aggregate_total. unfold ranked, dedup.
    rewrite sort_length.
    pose proof (dedupFrom_length ∅ (collect (allSettled w))) as Hle.
    rewrite collect_allSettled in *.
    pose proof (concat_length_bound
                  (fun e => parseFeed w (snd e) (fst e)) 20 endpoints
                  (fun e => parseFeed_length w (snd e) (fst e))) as Hsum.
    change (length endpoints) with 14%nat in Hsum. lia. }
  split; [done|].
  rewrite aggregate_articles, length_take, <- aggregate_total. lia.
Qed.

(** ** What the group maps hold *)

Lemma emptyGroups_key k :
  is_Some (emptyGroups !! k) → k ∈ ["hindu"; "indianexpress"; "et"].
Proof.
  unfold emptyGroups. simpl. intros [l H].
  repeat (rewrite lookup_insert in H; case_decide; [subst k; set_solver|]).
  by rewrite lookup_empty in H.
Qed.

Lemma ranked_source_cases w a :
  a ∈ ranked w →
  Article.source a = "hindu" ∨ Article.source a = "indianexpress"
  ∨ Article.source a = "et".
Proof.
  intros [_ _ _ (s & Hs & ->)]%ranked_normal. unfold RSS_SOURCES in Hs.
  repeat (apply elem_of_cons in Hs as [->|Hs]; [simpl; auto|]).
  by apply elem_of_nil in Hs.
Qed.

Lemma length_by_source (l : list Article.t) :
  (∀ a, a ∈ l →
        Article.source a = "hindu" ∨ Article.source a = "indianexpress"
        ∨ Article.source a = "et") →
  length l
  = (length (filter (fun a => Article.source a = "hindu") l)
     + length (filter (fun a => Article.source a = "indianexpress") l)
     + length (filter (fun a => Article.source a = "et") l))%nat.
Proof.
  induction l as [|a l IH]; intros Hsrc; [done|].
  assert (Hl : length l
    = (length (filter (fun a => Article.source a = "hindu") l)
       + length (filter (fun a => Article.source a = "indianexpress") l)
       + length (filter (fun a => Article.source a = "et") l))%nat)
    by (apply IH; intros b Hb; apply Hsrc; by right).
  destruct (Hsrc a) as [Ha|[Ha|Ha]]; [by left|..].
  - rewrite (filter_cons_True (fun a => Article.source a = "hindu")) by done.
    rewrite !filter_cons_False by (rewrite Ha; discriminate).
    simpl. lia.
  - rewrite (filter_cons_True (fun a => Article.source a = "indianexpress"))
      by done.
    rewrite !filter_cons_False by (rewrite Ha; discriminate).
    simpl. lia.
  - rewrite (filter_cons_True (fun a => Article.source a = "et")) by done.
    rewrite !filter_cons_False by (rewrite Ha; discriminate).
    simpl. lia.
Qed.

(** X5: [grouped] has the three source identifiers as its keys, in
    every response, and under each of them the deduplicated articles of
    that source in their sorted order, an empty list when the source has
    none; the three lists together count [total] articles. *)
Theorem grouped_by_source w :
  (∀ s, s ∈ RSS_SOURCES →
        Payload.grouped (aggregate w) !! Source.id s
        = Some (filter (fun a => Article.source a = Source.id s) (ranked w)))
  ∧ (∀ k, is_Some (Payload.grouped (aggregate w) !! k) ↔
          k ∈ ["hindu"; "indianexpress"; "et"])
  ∧ Payload.total (aggregate w)
    = (length (filter (fun a => Article.source a = "hindu") (ranked w))
       + length (filter (fun a => Article.source a = "indianexpress") (ranked w))
       + length (filter (fun a => Article.source a = "et") (ranked w)))%nat.
Proof.
  split; [|split].
  - intros s Hs.
    by rewrite aggregate_grouped, pushBySource_lookup, (emptyGroups_registry s Hs).
  - intros k. rewrite aggregate_grouped, pushBySource_lookup, fmap_is_Some.
    split; [apply emptyGroups_key|].
    intros Hk.
    repeat (apply elem_of_cons in Hk as [->|Hk];
            [apply is_Some_alt; by vm_compute|]).
    by apply elem_of_nil in Hk.
  - rewrite aggregate_total. apply length_by_source, ranked_source_cases.
Qed.

Lemma detectTopics_NoDup t d : NoDup (detectTopics t d).
Proof.
  unfold detectTopics.
  destruct (matchedTopics (itemText t d) UPSC_TOPICS) as [|x m] eqn:Hm.
  - apply NoDup_singleton.
  - rewrite <- Hm. apply (sublist_NoDup _ (matchedTopics (itemText t d) UPSC_TOPICS));
      [|apply sublist_take].
    rewrite matchedTopics_filter.
    apply (sublist_NoDup _ (map fst UPSC_TOPICS));
      [|apply (fmap_sublist fst), sublist_filter].
    apply (bool_decide_unpack _). by vm_compute.
Qed.

Lemma pushTopics_lookup a ts (g : gmap string (list Article.t)) t :
  NoDup ts →
  fold_left (pushByTopic a) ts g !! t
  = if decide (t ∈ ts) then Some (default [] (g !! t) ++ [a]) else g !! t.
Proof.
  intros Hts. revert g. induction Hts as [|t' ts Hnotin _ IH]; intros g;
    cbn [fold_left].
  - destruct (decide (t ∈ [])) as [Hin|_]; [by apply elem_of_nil in Hin | done].
  - rewrite IH. unfold pushByTopic.
    destruct (decide (t = t')) as [->|Hne].
    + destruct (decide (t' ∈ ts)) as [|_]; [done|].
      destruct (decide (t' ∈ t' :: ts)) as [_|Hn]; [|destruct Hn; by left].
      destruct (g !! t') as [l|] eqn:Hg; by rewrite lookup_insert_eq.
    + assert (Hstep : ∀ v, <[t' := v]> g !! t = g !! t)
        by (intros v; by rewrite lookup_insert_ne).
      destruct (g !! t') as [l|]; rewrite Hstep;
        destruct (decide (t ∈ ts)), (decide (t ∈ t' :: ts)); set_solver.
Qed.

Lemma groupByTopic_lookup l (g : gmap string (list Article.t)) t :
  (∀ a, a ∈ l → NoDup (Article.topics a)) →
  fold_left (fun g a => fold_left (pushByTopic a) (Article.topics a) g) l g !! t
  = match filter (fun a => t ∈ Article.topics a) l with
    | [] => g !! t
    | _ :: _ =>
        Some (default [] (g !! t) ++ filter (fun a => t ∈ Article.topics a) l)
    end.
Proof.
  revert g. induction l as [|a l IH]; intros g Hnodup; simpl; [done|].
  rewrite IH by (intros b Hb; apply Hnodup; by right).
  rewrite pushTopics_lookup by (apply Hnodup; by left).
  rewrite filter_cons. case_decide as Hin.
  - destruct (filter (fun a0 => t ∈ Article.topics a0) l) as [|b fl]; [done|].
    simpl. by rewrite <- app_assoc.
  - done.
Qed.

(** X6: [topicGrouped] has a key for a label exactly when some
    deduplicated article carries the label, and under it all these
    articles, each once, in their sorted order; no list of it is empty. *)
Theorem topicGrouped_by_label w t :
  Payload.topicGrouped (aggregate w) !! t
  = match filter (fun a => t ∈ Article.topics a) (ranked w) with
    | [] => None
    | _ :: _ => Some (filter (fun a => t ∈ Article.topics a) (ranked w))
    end.
Proof.
  rewrite aggregate_topicGrouped, groupByTopic_lookup.
  - rewrite lookup_empty. by destruct (filter _ (ranked w)).
  - intros a [_ _ -> _]%ranked_normal. apply detectTopics_NoDup.
Qed.

Lemma newerOrSame_trans : Transitive newerOrSame.
Proof. unfold newerOrSame. intros a b c ? ?. lia. Qed.

Lemma StronglySorted_filter_newer (P : Article.t → Prop)
    `{∀ x, Decision (P x)} l :
  StronglySorted newerOrSame l → StronglySorted newerOrSame (filter P l).
Proof.
  induction 1 as [|a l Hl IH Hall]; [constructor|].
  rewrite filter_cons. case_decide; [|done].
  constructor; [done|].
  apply Forall_forall. intros b [_ Hb]%list_elem_of_filter.
  by apply (proj1 (Forall_forall _ _) Hall).
Qed.

Lemma ranked_StronglySorted w : StronglySorted newerOrSame (ranked w).
Proof.
  apply Sorted_StronglySorted; [apply newerOrSame_trans | apply sort_Sorted].
Qed.

(** X7: every list of [grouped] and of [topicGrouped] is sorted by
    publish time, newest first: an article of the list is published no
    earlier than every article after it. *)
Theorem group_lists_newest_first w k l :
  Payload.grouped (aggregate w) !! k = Some l
  ∨ Payload.topicGrouped (aggregate w) !! k = Some l →
  StronglySorted newerOrSame l.
Proof.
  intros [Hl|Hl].
  - rewrite aggregate_grouped, pushBySource_lookup in Hl.
    destruct (emptyGroups !! k) as [l0|] eqn:Hk; [|discriminate].
    apply emptyGroups_lookup in Hk as ->. simpl in Hl. injection Hl as <-.
    apply StronglySorted_filter_newer, ranked_StronglySorted.
  - rewrite topicGrouped_by_label in Hl.
    destruct (filter (fun a => k ∈ Article.topics a) (ranked w)) as [|b fl]
      eqn:Hfilter; [discriminate|].
    injection Hl as <-. rewrite <- Hfilter.
    apply StronglySorted_filter_newer, ranked_StronglySorted.
Qed.

Lemma group_lists_newest_first_newsday :
  StronglySorted newerOrSame [Sample.newsdaySeries; Sample.newsdayBill].
Proof.
  apply (group_lists_newest_first Sample.newsday "hindu").
  left. vm_compute. reflexivity.
Defined.

(** ** Relevance and labels *)

Lemma someIncluded_all_keywords text :
  someIncluded text ALL_KEYWORDS = true ↔
  ∃ e, e ∈ UPSC_TOPICS ∧ topicMatches text (snd e).
Proof.
  unfold someIncluded, ALL_KEYWORDS, topicMatches. rewrite existsb_exists. split.
  - intros (k & Hk & Hinc). apply in_concat in Hk as (kws & Hkws & Hk).
    apply in_map_iff in Hkws as (e & <- & He).
    exists e. rewrite list_elem_of_In. split; [done|].
    exists k. by rewrite list_elem_of_In.
  - intros (e & He & k & Hk & Hinc). exists k. split; [|done].
    apply in_concat. exists (snd e). rewrite in_map_iff.
    split; [exists e|]; by rewrite <- ?list_elem_of_In.
Qed.

Lemma government_matches_polity text :
  Js.includes text "government" = true →
  ∃ e, e ∈ UPSC_TOPICS ∧ fst e = "Polity & Governance"
       ∧ topicMatches text (snd e).
Proof.
  intros Hinc. unfold UPSC_TOPICS. eexists. split; [by left|].
  split; [done|]. exists "government". split; [|done]. simpl. set_solver.
Qed.

(** X8: a title and a description are relevant exactly when a topic
    matches their text or the text holds ["india"]. The test for
    ["government"] decides nothing: it is a keyword of the first topic. *)
Theorem relevant_iff_topic_or_india t d :
  isRelevant t d = true ↔
  (∃ e, e ∈ UPSC_TOPICS ∧ topicMatches (itemText t d) (snd e))
  ∨ Js.includes (itemText t d) "india" = true.
Proof.
  unfold isRelevant.
  rewrite !orb_true_iff, someIncluded_all_keywords. split.
  - intros [[?|?]|Hgov]; [by left | by right | left].
    destruct (government_matches_polity _ Hgov) as (e & He & _ & Hm).
    by exists e.
  - intros [?|?]; [left; by left | left; by right].
Qed.

(** X9: the label ["General"] never stands beside another label; an
    article of the response carries it exactly when no topic matches its
    text, and then the text holds ["india"]. *)
Theorem General_label_means_india w a :
  inResponse (aggregate w) a →
  "General" ∈ Article.topics a →
  Article.topics a = ["General"]
  ∧ (∀ e, e ∈ UPSC_TOPICS →
          ¬ topicMatches (itemText (Article.title a) (Article.description a))
                         (snd e))
  ∧ Js.includes (itemText (Article.title a) (Article.description a)) "india"
    = true.
Proof.
  intros [_ Hrel Htopics _]%inResponse_ranked%ranked_normal Hgeneral.
  rewrite Htopics in *. unfold detectTopics in *.
  set (text := itemText (Article.title a) (Article.description a)) in *.
  destruct (matchedTopics text UPSC_TOPICS) as [|x m] eqn:Hm.
  - assert (Hnone : ∀ e, e ∈ UPSC_TOPICS → ¬ topicMatches text (snd e)).
    { intros [name kws] He Hmatch%someIncluded_spec.
      assert (Hin : name ∈ matchedTopics text UPSC_TOPICS).
      { rewrite matchedTopics_filter. apply list_elem_of_fmap.
        exists (name, kws). split; [done|]. by apply list_elem_of_filter. }
      rewrite Hm in Hin. by apply elem_of_nil in Hin. }
    split; [done|]. split; [done|].
    apply relevant_iff_topic_or_india in Hrel as [(e & He & Hmatch)|Hindia];
      [|done].
    by destruct (Hnone e He).
  - exfalso. apply (subseteq_take 3) in Hgeneral. rewrite <- Hm in Hgeneral.
    apply matchedTopics_elem in Hgeneral as (kws & Hin & _).
    apply General_not_a_topic_name. unfold topicNames.
    apply list_elem_of_fmap. by exists ("General", kws).
Qed.

Lemma General_label_anchored :
  Article.topics Sample.anchoredArticle = ["General"]
  ∧ (∀ e, e ∈ UPSC_TOPICS →
          ¬ topicMatches (itemText (Article.title Sample.anchoredArticle)
                                   (Article.description Sample.anchoredArticle))
                         (snd e))
  ∧ Js.includes (itemText (Article.title Sample.anchoredArticle)
                          (Article.description Sample.anchoredArticle)) "india"
    = true.
Proof.
  apply (General_label_means_india Sample.anchored).
  - left. apply (list_elem_of_lookup_2 _ 0). vm_compute. reflexivity.
  - vm_compute. left.
Defined.

Lemma toLowerCase_app x y :
  Js.toLowerCase (String.append x y)
  = String.append (Js.toLowerCase x) (Js.toLowerCase y).
Proof. induction x as [|c x IH]; simpl; [done | by rewrite IH]. Qed.

Lemma itemText_lower t d :
  itemText t d
  = String.append (Js.toLowerCase t) (String " " (Js.toLowerCase d)).
Proof. unfold itemText. by rewrite toLowerCase_app. Qed.

Lemma lower_alnum c :
  Js.isLowerAlnum (Js.lowerChar c) = Js.isAlnum c.
Proof. destruct c as [[] [] [] [] [] [] [] []]; by vm_compute. Qed.

Lemma keepChars_lower t :
  Js.keepChars Js.isLowerAlnum (Js.toLowerCase t)
  = Js.toLowerCase (Js.keepChars Js.isAlnum t).
Proof.
  induction t as [|c t IH]; simpl; [done|].
  rewrite lower_alnum. destruct (Js.isAlnum c); simpl; by rewrite IH.
Qed.

(** The key is the first 60 letters and digits of the title, in lower
    case. *)
Lemma dedupKey_alnum t :
  dedupKey t = Js.slice0 60 (Js.toLowerCase (Js.keepChars Js.isAlnum t)).
Proof. unfold dedupKey. by rewrite keepChars_lower. Qed.

Lemma toLowerCase_length x : String.length (Js.toLowerCase x) = String.length x.
Proof. induction x as [|c x IH]; simpl; [done | by rewrite IH]. Qed.

Lemma slice0_app_ge n x y :
  (n ≤ String.length x)%nat → Js.slice0 n (String.append x y) = Js.slice0 n x.
Proof.
  revert x. induction n as [|n IH]; intros [|c x] Hn; simpl in *; try done;
    [lia|]. rewrite IH; [done | lia].
Qed.

(** X10: relevance, the labels and the deduplication key look at the
    title and the description in lower case only: two titles and two
    descriptions that differ in letter case alone are relevant alike,
    get the same labels and the same key. *)
Theorem letter_case_is_ignored t t' d d' :
  Js.toLowerCase t = Js.toLowerCase t' →
  Js.toLowerCase d = Js.toLowerCase d' →
  isRelevant t d = isRelevant t' d'
  ∧ detectTopics t d = detectTopics t' d'
  ∧ dedupKey t = dedupKey t'.
Proof.
  intros Ht Hd.
  assert (Htext : itemText t d = itemText t' d')
    by (by rewrite !itemText_lower, Ht, Hd).
  unfold isRelevant, detectTopics, dedupKey. by rewrite Htext, Ht.
Qed.

Lemma letter_case_is_ignored_budget :
  isRelevant "INDIA BUDGET" "Fiscal Plan" = isRelevant "India Budget" "fiscal plan"
  ∧ detectTopics "INDIA BUDGET" "Fiscal Plan"
    = detectTopics "India Budget" "fiscal plan"
  ∧ dedupKey "INDIA BUDGET" = dedupKey "India Budget".
Proof.
  apply letter_case_is_ignored; vm_compute; reflexivity.
Defined.

(** X11: the deduplication key has at most 60 characters, all of them
    lower-case ASCII letters or digits. Titles with the same letters and
    digits up to case have the same key, whatever their spacing and
    punctuation; and so have titles that differ only after their first 60
    letters and digits. *)
Theorem dedupKey_collisions :
  (∀ t, (String.length (dedupKey t) ≤ 60)%nat
        ∧ allChars Js.isLowerAlnum (dedupKey t))
  ∧ (∀ t t',
       Js.toLowerCase (Js.keepChars Js.isAlnum t)
       = Js.toLowerCase (Js.keepChars Js.isAlnum t') →
       dedupKey t = dedupKey t')
  ∧ (∀ t u u',
       (60 ≤ String.length (Js.keepChars Js.isAlnum t))%nat →
       dedupKey (String.append t u) = dedupKey (String.append t u')).
Proof.
  split; [|split].
  - intros t. split; [apply slice0_length|].
    apply allChars_slice0, allChars_keepChars.
  - intros t t' H. by rewrite !dedupKey_alnum, H.
  - intros t u u' Hlen.
    rewrite !dedupKey_alnum, !keepChars_app, !toLowerCase_app.
    rewrite !slice0_app_ge by (by rewrite toLowerCase_length). done.
Qed.

(** ** Deduplication, once more *)

Lemma dedupFrom_titled seen l a :
  a ∈ dedupFrom seen l → Js.isEmpty (Article.title a) = false.
Proof.
  revert seen. induction l as [|x l IH]; intros seen; simpl;
    [by intros ?%elem_of_nil|].
  destruct (Js.isEmpty (Article.title x)) eqn:Hx; [apply IH|].
  case_decide; [apply IH|].
  intros [->|Ha]%elem_of_cons; [done | by apply (IH _ Ha)].
Qed.

Lemma dedupFrom_fixed seen l :
  (∀ a, a ∈ l → Js.isEmpty (Article.title a) = false ∧ keyOf a ∉ seen) →
  NoDup (map keyOf l) → dedupFrom seen l = l.
Proof.
  revert seen. induction l as [|x l IH]; intros seen Hl Hnodup; simpl; [done|].
  apply NoDup_cons in Hnodup as [Hx Hnodup].
  destruct (Hl x) as [-> Hnot]; [by left|].
  rewrite decide_False by done. f_equal. apply IH; [|done].
  intros a Ha. destruct (Hl a) as [Htitle Hseen]; [by right|].
  split; [done|]. intros [Heq%elem_of_singleton|?]%elem_of_union; [|done].
  apply Hx. apply list_elem_of_fmap. exists a. split; [|done].
  unfold keyOf in *. congruence.
Qed.

Lemma dedupFrom_sublist seen l : dedupFrom seen l `sublist_of` l.
Proof.
  revert seen. induction l as [|x l IH]; intros seen; simpl; [done|].
  destruct (Js.isEmpty (Article.title x)); [by apply sublist_cons|].
  case_decide; [by apply sublist_cons | by apply sublist_skip].
Qed.

(** X12: deduplication keeps the order of the list it is given, and a
    deduplicated list is left as it is by a second deduplication. *)
Theorem dedup_idempotent l :
  dedup l `sublist_of` l ∧ dedup (dedup l) = dedup l.
Proof.
  split; [apply dedupFrom_sublist|].
  unfold dedup. apply dedupFrom_fixed; [|apply dedupFrom_NoDup].
  intros a Ha. split; [by apply dedupFrom_titled in Ha | set_solver].
Qed.

(** ** Fields that are no text *)

Lemma attribute_only_throws P now src item attrs :
  raw_title item = Some (XElem None attrs)
  ∨ raw_category item = Some (XElem None attrs) →
  ∃ e, parseItem P now src item = Throw e.
Proof.
  unfold parseItem. intros [H|H].
  - unfold itemTitle. rewrite H. simpl. eauto.
  - pose proof (parseItem_settles P now src item) as Hsettles.
    unfold parseItem in *.
    destruct (itemTitle item) as [t|e|]; cbn [bind] in *; [|eauto|done].
    destruct (itemDescription item) as [d|e|]; cbn [bind] in *; [|eauto|done].
    unfold itemCategory. rewrite H. simpl. eauto.
Qed.

(** X13: an entry among the first twenty whose title or category is an
    element with attributes and no text, as the category of an Atom entry
    is, throws when its text is cleaned, be it relevant or not, and the
    endpoint yields no article at all. *)
Theorem attribute_only_field_empties_endpoint w url src doc j item attrs :
  fetched w url = Responded true (BodyText (XmlParsed doc)) →
  feedItems doc !! j = Some item → (j < 20)%nat →
  raw_title item = Some (XElem None attrs)
  ∨ raw_category item = Some (XElem None attrs) →
  parseFeed w url src = [].
Proof.
  intros Hdoc Hj Hlt Hattr.
  destruct (attribute_only_throws (Date_parse w) (clockAt w url j) src item
              attrs Hattr) as [e He].
  by apply (parseFeed_item_throws w url src doc j item e).
Qed.

Lemma attribute_only_field_termWorld :
  parseFeed More.termWorld Sample.hinduNational Sample.hindu = [].
Proof.
  apply (attribute_only_field_empties_endpoint More.termWorld
           Sample.hinduNational Sample.hindu More.termDoc 1 More.termEntry
           {["term" := "economy"]}).
  - vm_compute. reflexivity.
  - vm_compute. reflexivity.
  - lia.
  - right. reflexivity.
Defined.

(** ** Sources *)

(** X14: an article of the response carries the identifier, the two
    names and the colour of one source of the registry, and the list
    [sources] of the response has an entry with the same four values. *)
Theorem response_article_source w a :
  inResponse (aggregate w) a →
  ∃ s, s ∈ RSS_SOURCES
       ∧ Article.source a = Source.id s
       ∧ Article.sourceName a = Source.name s
       ∧ Article.sourceFullName a = Source.fullName s
       ∧ Article.sourceColor a = Source.color s
       ∧ {| Payload.id := Article.source a;
            Payload.name := Article.sourceName a;
            Payload.fullName := Article.sourceFullName a;
            Payload.color := Article.sourceColor a |}
         ∈ Payload.sources (aggregate w).
Proof.
  intros (e & j & item & He & Ha)%response_origin.
  apply endpoints_registry in He as [Hs _].
  apply parseItem_fields in Ha
    as (t & d & c & l & img & tm & _ & _ & _ & _ & _ & _ & ->).
  exists (fst e). cbn [Article.source Article.sourceName Article.sourceFullName
                        Article.sourceColor].
  repeat (split; [done|]).
  change (Payload.sources (aggregate w))
    with (map (fun s => {| Payload.id := Source.id s;
                           Payload.name := Source.name s;
                           Payload.fullName := Source.fullName s;
                           Payload.color := Source.color s |}) RSS_SOURCES).
  apply list_elem_of_fmap. by exists (fst e).
Qed.

Lemma response_article_source_newsday :
  ∃ s, s ∈ RSS_SOURCES
       ∧ Article.source Sample.newsdayBudget = Source.id s
       ∧ Article.sourceName Sample.newsdayBudget = Source.name s
       ∧ Article.sourceFullName Sample.newsdayBudget = Source.fullName s
       ∧ Article.sourceColor Sample.newsdayBudget = Source.color s
       ∧ {| Payload.id := Article.source Sample.newsdayBudget;
            Payload.name := Article.sourceName Sample.newsdayBudget;
            Payload.fullName := Article.sourceFullName Sample.newsdayBudget;
            Payload.color := Article.sourceColor Sample.newsdayBudget |}
         ∈ Payload.sources (aggregate Sample.newsday).
Proof.
  apply (response_article_source Sample.newsday).
  left. apply (list_elem_of_lookup_2 _ 1). vm_compute. reflexivity.
Defined.

(** * The service worker *)

Module ServiceWorkerFacts.
Import ServiceWorker.

Lemma activated_open st :
  activated st →
  ∃ c, cachesOpen CACHE_NAME st = [(CACHE_NAME, c)]
       ∧ ∀ req, cachesMatch st req = cacheMatch c req.
Proof.
  intros [->|[c ->]].
  - exists ∅. split; [done|]. intros req. unfold cacheMatch. simpl.
    destruct (String.eqb (method req) "GET"); [by rewrite lookup_empty | done].
  - exists c. split; [done|]. intros req. simpl. by destruct (cacheMatch c req).
Qed.

Lemma activated_putInCurrent req res st :
  activated st →
  ∃ c, cachesOpen CACHE_NAME st = [(CACHE_NAME, c)]
       ∧ (∀ r, cachesMatch st r = cacheMatch c r)
       ∧ putInCurrent req res st
         = [(CACHE_NAME, match cachePut req res c with
                         | Some c' => c'
                         | None => c
                         end)].
Proof.
  intros (c & Hopen & Hmatch)%activated_open. exists c.
  split; [done|]. split; [done|]. unfold putInCurrent. by rewrite Hopen.
Qed.

Lemma cachesMatch_single c req :
  cachesMatch [(CACHE_NAME, c)] req = cacheMatch c req.
Proof. simpl. by destruct (cacheMatch c req). Qed.

Lemma updateCache_single f c :
  updateCache CACHE_NAME f [(CACHE_NAME, c)] = [(CACHE_NAME, f c)].
Proof. reflexivity. Qed.

Lemma activated_onFetch pathnameOf req answer st :
  activated st → activated (snd (onFetch pathnameOf req answer st)).
Proof.
  intros Hact. unfold onFetch.
  assert (Hput : ∀ res, activated (putInCurrent req res st)).
  { intros res.
    destruct (activated_putInCurrent req res st Hact) as (c & _ & _ & ->).
    right. eauto. }
  destruct (isApi pathnameOf req).
  - destruct answer; simpl; auto.
  - destruct (cachesMatch st req); simpl; [done|].
    destruct answer as [res|]; simpl; [|done].
    destruct (ok res); auto.
Qed.

Lemma activated_onActivate st : activated st → onActivate st = st.
Proof.
  intros [->|[c ->]]; [done|]. unfold onActivate.
  by rewrite filter_cons_True, filter_nil.
Qed.

(** X15: for a GET request to the API the worker goes to the network
    first: the answer of the network, whatever its status but 206, is
    what the page gets, and it replaces what the cache had, so that it is
    what the page gets from the cache when the network is down
    afterwards. *)
Theorem network_first_round_trip pathnameOf req res st :
  activated st → isApi pathnameOf req = true →
  method req = "GET" → status res ≠ 206%Z →
  fst (onFetch pathnameOf req (Some res) st) = Some res
  ∧ fst (onFetch pathnameOf req None
           (snd (onFetch pathnameOf req (Some res) st))) = Some res.
Proof.
  intros Hact Hapi Hget Hstatus. unfold onFetch. rewrite Hapi. simpl.
  split; [done|].
  destruct (activated_putInCurrent req res st Hact) as (c & _ & _ & ->).
  rewrite cachesMatch_single. unfold cachePut, cacheMatch. rewrite Hget. simpl.
  apply Z.eqb_neq in Hstatus. rewrite Hstatus. simpl.
  by rewrite lookup_insert_eq.
Qed.

Lemma network_first_bad_news :
  fst (onFetch samplePathname apiRequest (Some badNews)
         [(CACHE_NAME, {[url apiRequest := goodNews]})]) = Some badNews
  ∧ fst (onFetch samplePathname apiRequest None
           (snd (onFetch samplePathname apiRequest (Some badNews)
                   [(CACHE_NAME, {[url apiRequest := goodNews]})])))
    = Some badNews.
Proof.
  apply (network_first_round_trip samplePathname apiRequest badNews).
  - right. eauto.
  - vm_compute. reflexivity.
  - reflexivity.
  - discriminate.
Defined.

Lemma isApi_url pathnameOf req req' :
  url req = url req' → isApi pathnameOf req = isApi pathnameOf req'.
Proof. unfold isApi. by intros ->. Qed.

Lemma activated_step pathnameOf ev st :
  activated st → activated (step pathnameOf st ev).
Proof.
  intros Hact. destruct ev as [req answer|]; simpl.
  - by apply activated_onFetch.
  - by rewrite activated_onActivate.
Qed.

(** *** Storages with older caches *)

Lemma cachesMatch_updateCache n f st req :
  (∀ c, cacheMatch (f c) req = cacheMatch c req) →
  cachesMatch (updateCache n f st) req = cachesMatch st req.
Proof.
  intros Hf. induction st as [|[k c] st IH]; simpl; [done|].
  destruct (String.eqb k n); simpl; [by rewrite Hf|]. by rewrite IH.
Qed.

Lemma cachesMatch_snoc_empty n st req :
  cachesMatch (st ++ [(n, ∅)]) req = cachesMatch st req.
Proof.
  induction st as [|[k c] st IH]; simpl.
  - unfold cacheMatch. destruct (String.eqb (method req) "GET"); [|done].
    by rewrite lookup_empty.
  - by rewrite IH.
Qed.

Lemma cachesMatch_open n st req :
  cachesMatch (cachesOpen n st) req = cachesMatch st req.
Proof.
  unfold cachesOpen. destruct (hasCache n st); [done|].
  apply cachesMatch_snoc_empty.
Qed.

Lemma currentCache_updateCache f st :
  currentCache (updateCache CACHE_NAME f st) = f <$> currentCache st.
Proof.
  induction st as [|[k c] st IH]; simpl; [done|].
  destruct (String.eqb k CACHE_NAME) eqn:Hk; simpl; by rewrite Hk.
Qed.

Lemma currentCache_open st :
  currentCache (cachesOpen CACHE_NAME st) = Some (default ∅ (currentCache st)).
Proof.
  unfold cachesOpen, hasCache.
  induction st as [|[k c] st IH]; simpl; [done|].
  destruct (String.eqb k CACHE_NAME) eqn:Hk; simpl; [by rewrite Hk|].
  destruct (existsb (fun kc => String.eqb (fst kc) CACHE_NAME) st);
    simpl; by rewrite Hk.
Qed.

Lemma currentCache_putInCurrent req res st :
  currentCache (putInCurrent req res st)
  = Some (match cachePut req res (default ∅ (currentCache st)) with
          | Some c' => c'
          | None => default ∅ (currentCache st)
          end).
Proof.
  unfold putInCurrent. by rewrite currentCache_updateCache, currentCache_open.
Qed.

Lemma onActivate_cons k c st :
  onActivate ((k, c) :: st)
  = if String.eqb k CACHE_NAME then (k, c) :: onActivate st else onActivate st.
Proof.
  unfold onActivate. rewrite filter_cons. simpl.
  destruct (String.eqb_spec k CACHE_NAME); by case_decide.
Qed.

(** Activation keeps the current cache, and puts it first. *)
Lemma currentCache_activate st c req :
  currentCache st = Some c →
  currentCache (onActivate st) = Some c
  ∧ (∀ r, cacheMatch c req = Some r → cachesMatch (onActivate st) req = Some r).
Proof.
  induction st as [|[k c0] st IH]; simpl; [done|].
  rewrite onActivate_cons.
  destruct (String.eqb k CACHE_NAME) eqn:Hk.
  - intros [= ->]. simpl. rewrite Hk. split; [done|]. by intros r ->.
  - apply IH.
Qed.

(** What a put for one request does to the match of another. *)
Lemma cachePut_other req' res req c :
  url req' ≠ url req ∨ method req' ≠ "GET" →
  cacheMatch (match cachePut req' res c with
              | Some c' => c'
              | None => c
              end) req = cacheMatch c req.
Proof.
  intros Hother. unfold cachePut.
  destruct (String.eqb_spec (method req') "GET") as [Hget|Hget]; simpl;
    [|done].
  destruct (status res =? 206)%Z; simpl; [done|].
  destruct Hother as [Hurl|?]; [|done].
  unfold cacheMatch. destruct (String.eqb (method req) "GET"); [|done].
  by rewrite lookup_insert_ne.
Qed.

Lemma cacheMatch_same c req req' :
  url req' = url req → method req' = "GET" → method req = "GET" →
  cacheMatch c req' = cacheMatch c req.
Proof. unfold cacheMatch. by intros -> -> ->. Qed.

Lemma cacheMatch_Some_GET c req r : cacheMatch c req = Some r → method req = "GET".
Proof.
  unfold cacheMatch. by destruct (String.eqb_spec (method req) "GET").
Qed.

Lemma cachesMatch_same st req req' :
  url req' = url req → method req' = "GET" → method req = "GET" →
  cachesMatch st req' = cachesMatch st req.
Proof.
  intros Hurl Hget' Hget. induction st as [|[k c] st IH]; simpl; [done|].
  by rewrite (cacheMatch_same c req req'), IH.
Qed.

(** One event keeps a page that the current cache holds and the storage
    matches. *)
Lemma step_keeps_current_page pathnameOf req r ev st c :
  isApi pathnameOf req = false →
  currentCache st = Some c → cacheMatch c req = Some r →
  cachesMatch st req = Some r →
  ∃ c', currentCache (step pathnameOf st ev) = Some c'
        ∧ cacheMatch c' req = Some r
        ∧ cachesMatch (step pathnameOf st ev) req = Some r.
Proof.
  intros Hstatic Hcur Hc Hr. pose proof (cacheMatch_Some_GET _ _ _ Hc) as Hget.
  destruct ev as [req' answer|]; simpl.
  2: { destruct (currentCache_activate st c req Hcur) as (Hcur' & Hm).
       exists c. auto. }
  assert (Hput : ∀ res,
            isApi pathnameOf req' = true ∨ cachesMatch st req' = None →
            ∃ c', currentCache (putInCurrent req' res st) = Some c'
                  ∧ cacheMatch c' req = Some r
                  ∧ cachesMatch (putInCurrent req' res st) req = Some r).
  { intros res Hother.
    assert (Hdiff : url req' ≠ url req ∨ method req' ≠ "GET").
    { destruct (String.eqb_spec (method req') "GET") as [Hget'|?];
        [left | by right].
      intros Hurl. destruct Hother as [Hapi|Hmiss].
      - rewrite (isApi_url pathnameOf req' req Hurl) in Hapi. congruence.
      - rewrite (cachesMatch_same st req req' Hurl Hget' Hget) in Hmiss.
        congruence. }
    eexists. split; [apply currentCache_putInCurrent|].
    rewrite Hcur. simpl. split.
    - by rewrite cachePut_other.
    - unfold putInCurrent. rewrite cachesMatch_updateCache, cachesMatch_open;
        [done|]. intros c0. by apply cachePut_other. }
  unfold onFetch. destruct (isApi pathnameOf req') eqn:Hapi.
  - destruct answer as [res|]; simpl; [|by exists c]. apply Hput. by left.
  - destruct (cachesMatch st req') eqn:Hmiss; simpl; [by exists c|].
    destruct answer as [res|]; simpl; [|by exists c].
    destruct (ok res); [|by exists c]. apply Hput. by right.
Qed.

(** X16: a page that is not of the API, that the current cache holds
    and that the storage matches (no older cache holds another response
    for it) is never fetched again: whatever requests and activations
    follow, and whatever the network answers, the current cache holds the
    same response, the storage matches it, and it is what the page gets,
    with nothing stored, also when the network has a newer one. *)
Theorem cached_page_never_refreshed pathnameOf req r c events st answer :
  isApi pathnameOf req = false →
  currentCache st = Some c → cacheMatch c req = Some r →
  cachesMatch st req = Some r →
  (∃ c', currentCache (run pathnameOf events st) = Some c'
         ∧ cacheMatch c' req = Some r)
  ∧ cachesMatch (run pathnameOf events st) req = Some r
  ∧ onFetch pathnameOf req answer (run pathnameOf events st)
    = (Some r, run pathnameOf events st).
Proof.
  intros Hstatic Hcur Hc Hr.
  assert (Hrun : ∃ c', currentCache (run pathnameOf events st) = Some c'
                       ∧ cacheMatch c' req = Some r
                       ∧ cachesMatch (run pathnameOf events st) req = Some r).
  { unfold run. revert st c Hcur Hc Hr.
    induction events as [|ev events IH]; intros st c Hcur Hc Hr; simpl;
      [by exists c|].
    destruct (step_keeps_current_page pathnameOf req r ev st c Hstatic Hcur Hc Hr)
      as (c' & Hcur' & Hc' & Hr').
    by apply (IH _ c'). }
  destruct Hrun as (c' & Hcur' & Hc' & Hkept).
  split; [by exists c'|]. split; [done|].
  unfold onFetch. by rewrite Hstatic, Hkept.
Qed.

Lemma cached_page_stays_old :
  (∃ c', currentCache
           (run samplePathname
              [Fetch apiRequest (Some badNews); Activate;
               Fetch indexRequest (Some newPage)] upgraded) = Some c'
         ∧ cacheMatch c' indexRequest = Some oldPage)
  ∧ cachesMatch
      (run samplePathname
         [Fetch apiRequest (Some badNews); Activate;
          Fetch indexRequest (Some newPage)] upgraded) indexRequest
    = Some oldPage
  ∧ onFetch samplePathname indexRequest (Some newPage)
      (run samplePathname
         [Fetch apiRequest (Some badNews); Activate;
          Fetch indexRequest (Some newPage)] upgraded)
    = (Some oldPage,
       run samplePathname
         [Fetch apiRequest (Some badNews); Activate;
          Fetch indexRequest (Some newPage)] upgraded).
Proof.
  apply (cached_page_never_refreshed samplePathname indexRequest oldPage
           {[url indexRequest := oldPage]}).
  - vm_compute. reflexivity.
  - vm_compute. reflexivity.
  - vm_compute. reflexivity.
  - vm_compute. reflexivity.
Defined.

Lemma hasCache_open n st : hasCache n (cachesOpen n st) = true.
Proof.
  unfold cachesOpen. destruct (hasCache n st) eqn:H; [done|].
  unfold hasCache. rewrite existsb_app. simpl.
  by rewrite String.eqb_refl, orb_true_r.
Qed.

Lemma cachesMatch_put_miss req res st :
  method req = "GET" → status res ≠ 206%Z →
  cachesMatch st req = None →
  cachesMatch (putInCurrent req res st) req = Some res.
Proof.
  intros Hget Hstatus%Z.eqb_neq Hmiss. unfold putInCurrent.
  pose proof (hasCache_open CACHE_NAME st) as Hhas.
  rewrite <- (cachesMatch_open CACHE_NAME st req) in Hmiss.
  induction (cachesOpen CACHE_NAME st) as [|[k c] st' IH]; [discriminate Hhas|].
  simpl in *. destruct (cacheMatch c req) eqn:Hc; [discriminate|].
  destruct (String.eqb k CACHE_NAME) eqn:Hk; simpl.
  - unfold cachePut, cacheMatch. rewrite Hget, Hstatus. simpl.
    by rewrite lookup_insert_eq.
  - rewrite Hc. by apply IH.
Qed.

(** X17: a GET request for a page that is not of the API and that no
    cache holds goes to the network, whatever caches the storage has. An
    answer that is ok, and not of status 206, is stored, and is what the
    page gets from the cache when the network is down afterwards; an
    answer that is not ok is handed to the page and the storage stays as
    it is. *)
Theorem cache_first_stores_ok_only pathnameOf req res st :
  isApi pathnameOf req = false →
  method req = "GET" → cachesMatch st req = None →
  fst (onFetch pathnameOf req (Some res) st) = Some res
  ∧ (ok res = true → status res ≠ 206%Z →
     fst (onFetch pathnameOf req None
            (snd (onFetch pathnameOf req (Some res) st))) = Some res)
  ∧ (ok res = false →
     snd (onFetch pathnameOf req (Some res) st) = st
     ∧ fst (onFetch pathnameOf req None st) = None).
Proof.
  intros Hstatic Hget Hmiss. unfold onFetch.
  rewrite Hstatic, Hmiss. simpl. split; [done|]. split.
  - intros -> Hstatus. simpl. by rewrite cachesMatch_put_miss.
  - by intros ->.
Qed.

Lemma cache_first_new_page :
  fst (onFetch samplePathname indexRequest (Some newPage)
         [("upsc-samachar-v0", {[url apiRequest := goodNews]})])
  = Some newPage
  ∧ (ok newPage = true → status newPage ≠ 206%Z →
     fst (onFetch samplePathname indexRequest None
            (snd (onFetch samplePathname indexRequest (Some newPage)
                    [("upsc-samachar-v0", {[url apiRequest := goodNews]})])))
     = Some newPage)
  ∧ (ok newPage = false →
     snd (onFetch samplePathname indexRequest (Some newPage)
            [("upsc-samachar-v0", {[url apiRequest := goodNews]})])
     = [("upsc-samachar-v0", {[url apiRequest := goodNews]})]
     ∧ fst (onFetch samplePathname indexRequest None
              [("upsc-samachar-v0", {[url apiRequest := goodNews]})]) = None).
Proof.
  apply (cache_first_stores_ok_only samplePathname indexRequest newPage).
  - vm_compute. reflexivity.
  - reflexivity.
  - vm_compute. reflexivity.
Defined.

Lemma append_inj_r p x y : String.append p x = String.append p y → x = y.
Proof. induction p as [|c p IH]; simpl; [done|]. intros [= H]. by apply IH. Qed.

(** X18: installation and activation together. When the network
    answers the requests for ["/"] and ["/index.html"] with responses
    that are ok and not of status 206, the installation succeeds, and
    once the worker is activated each of the two pages is answered from
    the cache with the response that was installed, the network up or
    down, whatever the older caches held for it. *)
Theorem installed_pages_served_after_activation
    origin pathnameOf net st r1 r2 answer :
  net (assetRequest origin "/") = Some r1 →
  net (assetRequest origin "/index.html") = Some r2 →
  ok r1 = true → status r1 ≠ 206%Z → ok r2 = true → status r2 ≠ 206%Z →
  isApi pathnameOf (assetRequest origin "/") = false →
  isApi pathnameOf (assetRequest origin "/index.html") = false →
  fst (onInstall origin net st) = true
  ∧ onFetch pathnameOf (assetRequest origin "/") answer
      (onActivate (snd (onInstall origin net st)))
    = (Some r1, onActivate (snd (onInstall origin net st)))
  ∧ onFetch pathnameOf (assetRequest origin "/index.html") answer
      (onActivate (snd (onInstall origin net st)))
    = (Some r2, onActivate (snd (onInstall origin net st))).
Proof.
  intros H1 H2 Hok1 Hs1%Z.eqb_neq Hok2 Hs2%Z.eqb_neq Hroot Hindex.
  unfold onInstall, addAllAccepts, STATIC_ASSETS.
  cbn [map forallb snd fst]. rewrite H1, H2, Hok1, Hok2, Hs1, Hs2.
  cbn [andb negb fst snd].
  split; [done|].
  set (st1 := updateCache CACHE_NAME
                (storeAll [(assetRequest origin "/", Some r1);
                           (assetRequest origin "/index.html", Some r2)])
                (cachesOpen CACHE_NAME st)).
  assert (Hcur : currentCache st1
                 = Some (storeAll [(assetRequest origin "/", Some r1);
                                   (assetRequest origin "/index.html", Some r2)]
                           (default ∅ (currentCache st))))
    by (unfold st1; by rewrite currentCache_updateCache, currentCache_open).
  assert (Hserved : ∀ req r,
            isApi pathnameOf req = false →
            cacheMatch (storeAll [(assetRequest origin "/", Some r1);
                                  (assetRequest origin "/index.html", Some r2)]
                          (default ∅ (currentCache st))) req = Some r →
            onFetch pathnameOf req answer (onActivate st1)
            = (Some r, onActivate st1)).
  { intros req r Hstatic Hmatch.
    destruct (currentCache_activate st1 _ req Hcur) as (_ & Hm).
    unfold onFetch. by rewrite Hstatic, (Hm r Hmatch). }
  split; apply Hserved; try done; unfold cacheMatch, storeAll, assetRequest;
    cbn [fold_left method url fst snd];
    change (String.eqb "GET" "GET") with true; cbv iota.
  - rewrite lookup_insert_ne; [by rewrite lookup_insert_eq|].
    intros Heq%append_inj_r. discriminate.
  - by rewrite lookup_insert_eq.
Qed.

Lemma installed_pages_served_sample :
  fst (onInstall sampleOrigin (fun _ => Some newPage) upgraded) = true
  ∧ onFetch samplePathname (assetRequest sampleOrigin "/") None
      (onActivate (snd (onInstall sampleOrigin (fun _ => Some newPage) upgraded)))
    = (Some newPage,
       onActivate (snd (onInstall sampleOrigin (fun _ => Some newPage) upgraded)))
  ∧ onFetch samplePathname (assetRequest sampleOrigin "/index.html") None
      (onActivate (snd (onInstall sampleOrigin (fun _ => Some newPage) upgraded)))
    = (Some newPage,
       onActivate (snd (onInstall sampleOrigin (fun _ => Some newPage) upgraded))).
Proof.
  apply (installed_pages_served_after_activation sampleOrigin samplePathname
           (fun _ => Some newPage) upgraded newPage newPage None);
    solve [reflexivity | discriminate | vm_compute; reflexivity].
Defined.

(** Before the activation the older cache still answers for the root
    page. *)
Lemma stale_page_until_activation :
  onFetch samplePathname rootRequest None
    (snd (onInstall sampleOrigin (fun _ => Some newPage) upgraded))
  = (Some stalePage,
     snd (onInstall sampleOrigin (fun _ => Some newPage) upgraded)).
Proof. vm_compute. reflexivity. Qed.

(** X19: activation leaves no cache but the current one, with what it
    held, and from then on no event creates another cache. *)
Theorem activation_leaves_current_cache pathnameOf st events :
  NoDup (map fst st) →
  activated (onActivate st)
  ∧ (∀ c, (CACHE_NAME, c) ∈ st → onActivate st = [(CACHE_NAME, c)])
  ∧ activated (run pathnameOf events (onActivate st)).
Proof.
  intros Hnodup.
  assert (Hcases : (∀ c, (CACHE_NAME, c) ∉ st) ∧ onActivate st = []
                   ∨ ∃ c, (CACHE_NAME, c) ∈ st
                          ∧ onActivate st = [(CACHE_NAME, c)]).
  { unfold onActivate. induction st as [|[k c] st IH]; [left; split; [|done]|].
    { intros c Hc. by apply elem_of_nil in Hc. }
    simpl in Hnodup. apply NoDup_cons in Hnodup as [Hk Hnodup].
    rewrite filter_cons. simpl. case_decide as Hname.
    - subst k. right. exists c. split; [by left|].
      destruct (IH Hnodup) as [[_ ->]|(c' & Hc' & _)]; [done|].
      destruct Hk. apply list_elem_of_fmap. by exists (CACHE_NAME, c').
    - destruct (IH Hnodup) as [[Hnone ->]|(c' & Hc' & ->)].
      + left. split; [|done]. intros c0 [Heq|?]%elem_of_cons.
        * simpl in Hname. congruence.
        * by apply (Hnone c0).
      + right. exists c'. split; [by right | done]. }
  assert (Hact : activated (onActivate st)).
  { destruct Hcases as [[_ ->]|(c & _ & ->)]; [by left | right; eauto]. }
  split; [done|]. split.
  - intros c Hc. destruct Hcases as [[Hnone _]|(c' & Hc' & ->)];
      [by destruct (Hnone c)|].
    f_equal. f_equal.
    assert (Hsame : ∀ (l : list (string * gmap string Response)) k v v',
              NoDup (map fst l) → (k, v) ∈ l → (k, v') ∈ l → v = v').
    { clear. induction l as [|[k0 v0] l IH]; intros k v v' Hl Hv Hv';
        [by apply elem_of_nil in Hv|].
      simpl in Hl. apply NoDup_cons in Hl as [Hk0 Hl].
      apply elem_of_cons in Hv as [Hv|Hv];
        apply elem_of_cons in Hv' as [Hv'|Hv'].
      - congruence.
      - destruct Hk0. apply list_elem_of_fmap. exists (k, v').
        split; [simpl; congruence | done].
      - destruct Hk0. apply list_elem_of_fmap. exists (k, v).
        split; [simpl; congruence | done].
      - by apply (IH k v v'). }
    by apply (Hsame st CACHE_NAME).
  - unfold run. generalize (onActivate st) Hact. clear.
    induction events as [|ev events IH]; intros st Hact; simpl; [done|].
    apply IH. by apply activated_step.
Qed.

Lemma activation_sample :
  activated (onActivate [("upsc-samachar-v0", ∅);
                         (CACHE_NAME, {[url indexRequest := oldPage]})])
  ∧ (∀ c, (CACHE_NAME, c)
          ∈ [("upsc-samachar-v0", ∅);
             (CACHE_NAME, {[url indexRequest := oldPage]})] →
          onActivate [("upsc-samachar-v0", ∅);
                      (CACHE_NAME, {[url indexRequest := oldPage]})]
          = [(CACHE_NAME, c)])
  ∧ activated (run samplePathname [Fetch apiRequest (Some goodNews)]
                 (onActivate [("upsc-samachar-v0", ∅);
                              (CACHE_NAME, {[url indexRequest := oldPage]})])).
Proof.
  apply (activation_leaves_current_cache samplePathname).
  apply (bool_decide_unpack _). by vm_compute.
Defined.

End ServiceWorkerFacts.

(** * The cut *)

Lemma StronglySorted_app_elem {A} (R : A → A → Prop) (l1 l2 : list A) x1 x2 :
  StronglySorted R (l1 ++ l2) → x1 ∈ l1 → x2 ∈ l2 → R x1 x2.
Proof.
  induction l1 as [|y l1 IH]; simpl; [by intros _ ?%elem_of_nil|].
  intros Hsorted [->|Hx1]%elem_of_cons Hx2.
  - inversion Hsorted as [|? ? _ Hall]; subst.
    apply (proj1 (Forall_forall _ _) Hall), elem_of_app. by right.
  - inversion Hsorted; subst. by apply IH.
Qed.

(** X20: the cut at 250 drops the oldest: every deduplicated article
    that is left out of the top-level list is published no later than
    every article of the list. *)
Theorem cut_keeps_newest w a b :
  a ∈ Payload.articles (aggregate w) → b ∈ drop 250 (ranked w) →
  (Article.pubDate b ≤ Article.pubDate a)%Z.
Proof.
  rewrite aggregate_articles. intros Ha Hb.
  apply (StronglySorted_app_elem newerOrSame
           (take 250 (ranked w)) (drop 250 (ranked w)) a b); [|done|done].
  rewrite take_drop. apply ranked_StronglySorted.
Qed.

Lemma cut_keeps_newest_crowded :
  (Article.pubDate (Sample.crowdedArticle 250)
   ≤ Article.pubDate (Sample.crowdedArticle 249))%Z.
Proof.
  apply (cut_keeps_newest Sample.crowded).
  - apply (list_elem_of_lookup_2 _ 249). vm_compute. reflexivity.
  - apply (list_elem_of_lookup_2 _ 0). vm_compute. reflexivity.
Defined.
